(** * gaia: connection life cycle, range reader and offload pool

    A shallow embedding of the fiber-level code of
    - [util/asio/client_channel.cc]   (module [ClientChannel]),
    - [util/gce/gcs_read_file.cc]     (module [Gcs]),
    - [util/asio/accept_server.cc]    (module [AcceptServer]),
    - [util/fibers/fiberqueue_threadpool.cc] (module [FiberQueueThreadPool]),
    - [examples/mr3.cc]               (module [Mr3]).

    Conventions.  A member function becomes a function on the record of the
    members it touches.  Whatever a fiber learns at a suspension point (the
    clock, the outcome of a resolve or a connect, a flag another thread
    has set meanwhile) is an explicit argument: a script the environment
    supplies.  Calls into Asio, Beast or the fiber library that have no value
    we need are recorded as events of a trace, in program order.  [CHECK]
    aborts the process; [DCHECK] is compiled out of release builds and is
    stated as a lemma instead. *)

From Stdlib Require Import ZArith List Bool Lia Arith.
From Stdlib Require String.
Import ListNotations.

#[local] Open Scope Z_scope.

(** ** Part I: the programs *)

(** *** util/asio/client_channel.cc *)

Module ClientChannel.

(** [boost::system::error_code], as far as the channel tells values apart:
    the success value, [asio::error::operation_aborted], and any other code. *)
Inductive error_code : Type :=
| success
| operation_aborted
| failure (code : Z).

(** [explicit operator bool]: true when the code is an error. *)
Definition is_error (ec : error_code) : bool :=
  match ec with
  | success => false
  | _ => true
  end.

(** The members of [ClientChannelImpl] the functions below read and write. *)
Record state : Type := mkState {
  status_ : error_code;
  shutting_down_ : bool;
  reconnect_active_ : bool
}.

Definition set_status (ec : error_code) (s : state) : state :=
  mkState ec (shutting_down_ s) (reconnect_active_ s).

Definition set_shutting_down (b : bool) (s : state) : state :=
  mkState (status_ s) b (reconnect_active_ s).

Definition set_reconnect_active (b : bool) (s : state) : state :=
  mkState (status_ s) (shutting_down_ s) b.

(** [steady_clock::time_point] and durations, counted in nanoseconds. *)
Definition time_point : Type := Z.

Definition ms (n : Z) : Z := n * 1000000.
Definition sec (n : Z) : Z := n * 1000000000.

Arguments ms : simpl never.
Arguments sec : simpl never.

(** What a call leaves behind outside [state], in program order. *)
Inductive event : Type :=
| EvPost                           (* io_context_.Post(...) *)
| EvSpawnFiber                     (* fibers::fiber(cb).detach() *)
| EvDoneNotify                     (* done.Notify() *)
| EvDoneWait                       (* done.Wait() *)
| EvDoneReset                      (* done.Reset() *)
| EvTimerCancel                    (* timer.cancel() in connect_cb *)
| EvResolve (ok : bool)            (* Resolve(yield[resolve_ec]) *)
| EvConnect (deadline : time_point)(* timer.expires_at(until); async_connect; timer.async_wait *)
| EvNonBlocking                    (* sock_.non_blocking(true) in connect_cb *)
| EvSockCancel                     (* sock_.cancel() *)
| EvDeadlineCheck (shut : bool) (now : time_point)
                                   (* the test of line 98 and what it read *)
| EvSleep (dur : Z) (sleep_until : time_point)
                                   (* timer.expires_at(sleep_until); timer.async_wait *)
| EvSockShutdown                   (* sock_.shutdown(shutdown_both, ec) *)
| EvCondNotify                     (* shd_cnd_.notify_one() *)
| EvSetNiceLevel (n : Z)           (* SetNiceLevel(n) *)
| EvReconnectAsync.                (* ReconnectAsync() *)

(** What the environment decides during one turn of the loop of
    [ResolveAndConnect]. *)
Record iteration : Type := mkIteration {
  now_head : time_point;     (* steady_clock::now() in the loop condition *)
  resolve_ok : bool;         (* !resolve_ec *)
  cb_first : bool;           (* connect_cb ran before the timer wait returned *)
  timer_fired : bool;        (* !ec after timer.async_wait(yield[ec]) *)
  connect_ec : error_code;   (* the code connect_cb is called with *)
  shut_attempt : bool;       (* Shutdown() ran while the attempt was suspended *)
  now_check : time_point;    (* steady_clock::now() of line 97 *)
  shut_sleep : bool          (* Shutdown() ran during the back-off sleep *)
}.

(** How [ResolveAndConnect] left. *)
Inductive exit : Type :=
| ExitLoop         (* the loop condition of line 73 is false *)
| ExitConnected    (* return of line 92 *)
| ExitAborted      (* return of line 100 *)
| ExitNoScript.    (* the script ended while the fiber was still looping *)

Definition later {A : Type} (evs : list event) (r : A * list event) : A * list event :=
  (fst r, evs ++ snd r).

(** [connect_cb] (lines 60-71). *)
Definition connect_cb (ec : error_code) (s : state) : state * list event :=
  (set_status ec s,
   EvTimerCancel :: (if is_error ec then [] else [EvNonBlocking]) ++ [EvDoneNotify]).

(** Another thread running the first half of [Shutdown] while this fiber is
    suspended. *)
Definition observe_shutdown (b : bool) (s : state) : state :=
  set_shutting_down (shutting_down_ s || b) s.

(** Lines 76-95: one attempt.  The boolean is true for the [return] of
    line 92. *)
Definition attempt (until : time_point) (it : iteration) (s : state)
  : (bool * state) * list event :=
  if resolve_ok it then
    let '(s1, e1) := if cb_first it then connect_cb (connect_ec it) s else (s, []) in
    let s1 := observe_shutdown (shut_attempt it) s1 in
    let pre := [EvResolve true; EvDoneReset; EvConnect until] ++ e1 in
    (* what done.Wait() of line 94 waits for *)
    let '(s2, e2) := if cb_first it then (s1, []) else connect_cb (connect_ec it) s1 in
    if is_error (status_ s1) && timer_fired it then
      (false, s2, pre ++ [EvSockCancel] ++ e2 ++ [EvDoneWait])
    else if negb (is_error (status_ s1)) then
      (true, s1, pre)
    else
      (false, s2, pre ++ e2 ++ [EvDoneWait])
  else
    (false, observe_shutdown (shut_attempt it) s, [EvResolve false]).

(** Lines 106-107. *)
Definition next_sleep_dur (sleep_dur : Z) : Z :=
  if sleep_dur <? 1000 then sleep_dur + 100 else sleep_dur.

(** The loop of lines 73-108; [sleep_dur] is a count of milliseconds. *)
Fixpoint connect_loop (until : time_point) (sleep_dur : Z)
  (script : list iteration) (s : state) : (exit * state) * list event :=
  if shutting_down_ s || negb (is_error (status_ s)) then (ExitLoop, s, [])
  else
    match script with
    | [] => (ExitNoScript, s, [])
    | it :: script' =>
      if negb (now_head it <? until) then (ExitLoop, s, [])
      else
        match attempt until it s with
        | (true, s1, evs) => (ExitConnected, s1, evs)
        | (false, s1, evs) =>
          let now := now_check it in
          let chk := EvDeadlineCheck (shutting_down_ s1) now in
          if shutting_down_ s1 || (until <=? now + ms 2) then
            (ExitAborted, set_status operation_aborted s1, evs ++ [chk])
          else
            let sleep_until := Z.min (now + ms sleep_dur) (until - ms 2) in
            let s2 := observe_shutdown (shut_sleep it) s1 in
            later (evs ++ [chk; EvSleep sleep_dur sleep_until])
              (connect_loop until (next_sleep_dur sleep_dur) script' s2)
        end
    end.

(** [ClientChannelImpl::ResolveAndConnect] (lines 53-109). *)
Definition ResolveAndConnect (until : time_point) (script : list iteration)
  (s : state) : (exit * state) * list event :=
  connect_loop until 100 script s.

(** A call either returns or dies in a failed [CHECK]. *)
Inductive outcome (A : Type) : Type :=
| Returned (a : A)
| CheckFailed.

Arguments Returned {A} a.
Arguments CheckFailed {A}.

(** [ClientChannelImpl::Connect] (lines 23-51); [now] is the clock of line 33.
    [None] when the script ends before [ResolveAndConnect] does. *)
Definition Connect (timeout_ms : Z) (now : time_point) (script : list iteration)
  (s : state) : option (outcome (error_code * state) * list event) :=
  if negb (negb (shutting_down_ s) && negb (reconnect_active_ s)) then
    Some (CheckFailed, [])
  else if negb (is_error (status_ s)) then
    Some (Returned (status_ s, s), [])
  else
    let tp := now + ms timeout_ms in
    match ResolveAndConnect tp script s with
    | (ExitNoScript, _, _) => None
    | (_, s', evs) =>
      Some (Returned (status_ s', s'),
            [EvPost; EvSpawnFiber] ++ evs ++ [EvDoneNotify; EvDoneWait])
    end.

(** The part of [Shutdown] before it blocks (lines 112-126); [shutdown_ok]
    is [!ec] after [sock_.shutdown]. *)
Definition Shutdown_begin (shutdown_ok : bool) (s : state) : state * list event :=
  if negb (shutting_down_ s) then
    (set_shutting_down true s,
     EvSockShutdown :: (if shutdown_ok then [EvSockCancel] else []))
  else (s, []).

(** The predicate [shd_cnd_.wait] of line 128 waits for. *)
Definition Shutdown_may_return (s : state) : bool :=
  negb (reconnect_active_ s).

(** Line 137 of [ReconnectFiber], read without the lock: try again? *)
Definition ReconnectFiber_rearms (s : state) : bool :=
  negb (shutting_down_ s) && is_error (status_ s).

(** Lines 142-152, under [shd_mu_]. *)
Definition ReconnectFiber_locked (s : state) : state * list event :=
  let s' := set_reconnect_active false s in
  (s', if shutting_down_ s' then [EvCondNotify] else []).

(** Lines 135-153 of [ReconnectFiber]: what follows [ResolveAndConnect].
    [shut_lock]: [Shutdown] began on its thread between the test of line 137
    and the lock of line 142. *)
Definition ReconnectFiber_tail (shut_lock : bool) (s : state) : state * list event :=
  if ReconnectFiber_rearms s then (s, [EvReconnectAsync])
  else ReconnectFiber_locked (observe_shutdown shut_lock s).

Definition nice_level : Z := 4.

(** [ClientChannelImpl::ReconnectFiber] (lines 131-153); [now] is the clock
    of line 134. *)
Definition ReconnectFiber (now : time_point) (script : list iteration)
  (shut_lock : bool) (s : state) : option (state * list event) :=
  match ResolveAndConnect (now + sec 30) script s with
  | (ExitNoScript, _, _) => None
  | (_, s1, evs) =>
    Some (later ([EvSetNiceLevel nice_level] ++ evs) (ReconnectFiber_tail shut_lock s1))
  end.

(** Line 156 of [HandleErrorStatus], read without the lock: return at once? *)
Definition HandleErrorStatus_returns (s : state) : bool :=
  shutting_down_ s || reconnect_active_ s.

(** Lines 161-165, under [shd_mu_]. *)
Definition HandleErrorStatus_locked (s : state) : state * list event :=
  (set_reconnect_active true s, [EvReconnectAsync]).

(** [ClientChannelImpl::HandleErrorStatus] (lines 155-166).  [shut_lock]:
    [Shutdown] began on its thread between the test and the lock. *)
Definition HandleErrorStatus (shut_lock : bool) (s : state) : state * list event :=
  if HandleErrorStatus_returns s then (s, [])
  else HandleErrorStatus_locked (observe_shutdown shut_lock s).

(** **** The channel, its reactor and the thread that shuts it down

    The flags are touched by the fibers of the channel's reactor, one at a
    time, and by the thread that calls [Shutdown].  [HandleErrorStatus] and
    the end of [ReconnectFiber] test the flags first and take [shd_mu_]
    afterwards; [reactor] says whether the fiber running on the reactor
    stands between the two.  The steps of the reactor are what a fiber does
    up to its next suspension point or up to the lock; the steps of
    [Shutdown] may come between any two of them.  [fibers] counts the
    reconnect fibers that were spawned and have not returned. *)

Inductive reactor_at : Type :=
| Idle               (* no fiber is between a test and its lock *)
| HandleErrorAtLock  (* HandleErrorStatus is past line 156 *)
| FiberAtLock.       (* ReconnectFiber is past line 137 *)

Record system : Type := mkSystem {
  chan : state;
  fibers : nat;
  reactor : reactor_at;
  shutdowns_returned : nat
}.

(** Modelled from the spec: [ReconnectAsync] is defined in client_channel.h,
    which is not among the sources; it "spawns the reconnect fiber
    asynchronously".  Each [EvReconnectAsync] of a trace starts one fiber
    that runs [ReconnectFiber]. *)
Definition spawned (evs : list event) : nat :=
  length (filter (fun e => match e with EvReconnectAsync => true | _ => false end) evs).

Inductive label : Type :=
| LHandleErrorTest
| LHandleErrorLocked
| LConnectCb (ec : error_code)
| LShutdownBegin
| LShutdownReturn
| LFiberTest
| LFiberLocked.

Inductive step : system -> label -> system -> Prop :=
| step_handle_error_test : forall c n k,
    step (mkSystem c n Idle k) LHandleErrorTest
         (mkSystem c n (if HandleErrorStatus_returns c then Idle else HandleErrorAtLock) k)
| step_handle_error_locked : forall c n k c' evs,
    HandleErrorStatus_locked c = (c', evs) ->
    step (mkSystem c n HandleErrorAtLock k) LHandleErrorLocked
         (mkSystem c' (n + spawned evs) Idle k)
| step_connect_cb : forall c n k ec,
    (* a fiber inside ResolveAndConnect: connect_cb or line 99 writes status_ *)
    step (mkSystem c n Idle k) (LConnectCb ec) (mkSystem (set_status ec c) n Idle k)
| step_shutdown_begin : forall c n r k ok c' evs,
    Shutdown_begin ok c = (c', evs) ->
    step (mkSystem c n r k) LShutdownBegin (mkSystem c' n r k)
| step_shutdown_return : forall c n r k,
    shutting_down_ c = true ->
    Shutdown_may_return c = true ->
    step (mkSystem c n r k) LShutdownReturn (mkSystem c n r (S k))
| step_fiber_test : forall c n k,
    (* a reconnect fiber back from ResolveAndConnect, at line 137 *)
    step (mkSystem c (S n) Idle k) LFiberTest
         (if ReconnectFiber_rearms c
          then mkSystem c (n + spawned [EvReconnectAsync]) Idle k
          else mkSystem c (S n) FiberAtLock k)
| step_fiber_locked : forall c n k c' evs,
    ReconnectFiber_locked c = (c', evs) ->
    step (mkSystem c (S n) FiberAtLock k) LFiberLocked (mkSystem c' n Idle k).

(** Modelled from the spec: the constructor is in client_channel.h, not among
    the sources; a fresh channel is Disconnected, "no reconnect running". *)
Definition initial (s : system) : Prop :=
  shutting_down_ (chan s) = false /\ reconnect_active_ (chan s) = false /\
  fibers s = 0%nat /\ reactor s = Idle /\ shutdowns_returned s = 0%nat.

Inductive reachable : system -> Prop :=
| reachable_init : forall s, initial s -> reachable s
| reachable_step : forall s l s', reachable s -> step s l s' -> reachable s'.

(** **** Notions the properties of the channel are stated with *)

(** The events of the back-off schedule. *)
Definition is_check (e : event) : bool :=
  match e with
  | EvDeadlineCheck _ _ => true
  | _ => false
  end.

Definition is_sleep (e : event) : bool :=
  match e with
  | EvSleep _ _ => true
  | _ => false
  end.

Definition quiet (e : event) : bool := negb (is_check e || is_sleep e).

(** How many back-off sleeps a trace holds. *)
Definition sleeps (evs : list event) : Z :=
  Z.of_nat (length (filter is_sleep evs)).

(** The sleep duration after [k] sleeps: 100ms more each time, at most 1s. *)
Definition dur_at (k : Z) : Z := Z.min (100 * (k + 1)) 1000.

(** Exactly as many reconnect fibers as [reconnect_active_] says; a
    [HandleErrorStatus] at its lock has seen the flag clear, a fiber at its
    lock is the one the flag stands for. *)
Definition single_reconnect (s : system) : Prop :=
  fibers s = (if reconnect_active_ (chan s) then 1%nat else 0%nat) /\
  match reactor s with
  | Idle => True
  | HandleErrorAtLock => reconnect_active_ (chan s) = false
  | FiberAtLock => reconnect_active_ (chan s) = true
  end.

(** A script of three turns: two failed attempts 150ms apart, then a third
    one that finds the deadline 1ms away. *)
Definition demo_script : list iteration :=
  [ mkIteration 0 true true false (failure 111) false (ms 10) false;
    mkIteration (ms 110) false false false success false (ms 120) false;
    mkIteration (ms 320) true false true operation_aborted false (ms 499) false ].

Definition demo_state : state := mkState (failure 107) false false.

Definition demo_trace_1 : list event :=
  [EvResolve true; EvDoneReset; EvConnect (ms 500);
   EvTimerCancel; EvDoneNotify; EvDoneWait;
   EvDeadlineCheck false (ms 10); EvSleep 100 (ms 110);
   EvResolve false].

Definition demo_trace_2 : list event :=
  [EvSleep 200 (ms 320); EvResolve true; EvDoneReset; EvConnect (ms 500);
   EvSockCancel; EvTimerCancel; EvDoneNotify; EvDoneWait].

(** A channel on which an error was handled and [Shutdown] has begun. *)
Definition demo_system : system :=
  mkSystem (mkState (failure 107) true true) 1 Idle 0.

End ClientChannel.

(** Words for the runs of [ResolveAndConnect], in terms of what the
    environment hands to each iteration. *)
Module Backoff.

Import ClientChannel.

(** An attempt that does not take the [return] of line 92: the resolve
    failed, or [connect_cb] had not run with an ok code when the timer wait
    of line 86 returned. *)
Definition attempt_fails (it : iteration) : bool :=
  negb (resolve_ok it && cb_first it && negb (is_error (connect_ec it))).

(** An iteration after which the loop goes round once more: it starts
    before the deadline, the resolve or the connect fails, line 98 finds the
    channel not shutting down and more than 2ms left, and nobody shuts the
    channel down during the sleep. *)
Definition retries (until : time_point) (it : iteration) : bool :=
  (now_head it <? until)
  && (negb (resolve_ok it) || is_error (connect_ec it))
  && negb (shut_attempt it)
  && negb (until <=? now_check it + ms 2)
  && negb (shut_sleep it).

(** The back-off the spec prescribes for failed attempts, the first of them
    after [k] sleeps: a deadline check, then a sleep of
    [min(100ms * (k + 1), 1s)] that ends at [min(now + sleep_dur, until - 2ms)]. *)
Fixpoint backoff (until : time_point) (k : Z) (its : list iteration) : list event :=
  match its with
  | [] => []
  | it :: rest =>
    EvDeadlineCheck false (now_check it)
    :: EvSleep (Z.min (100 * (k + 1)) 1000)
         (Z.min (now_check it + ms (Z.min (100 * (k + 1)) 1000)) (until - ms 2))
    :: backoff until (k + 1) rest
  end.

(** The deadline checks and the sleeps of a trace, in order. *)
Definition schedule (evs : list event) : list event :=
  filter (fun e => negb (quiet e)) evs.

End Backoff.

(** *** util/gce/gcs_read_file.cc *)

Module Gcs.

Definition byte : Type := Byte.byte.

(** [size_t] is 64 bits wide; [kuint64max] is its largest value. *)
Definition kuint64max : Z := 2 ^ 64 - 1.

Definition wrap (z : Z) : Z := z mod 2 ^ 64.

(** The codes [Read] tells apart: success, [h2::error::need_buffer],
    [h2::error::partial_message], [asio::ssl::error::stream_truncated] and
    any other code. *)
Inductive error_code : Type :=
| success
| need_buffer
| partial_message
| stream_truncated
| failure (code : Z).

Definition is_error (ec : error_code) : bool :=
  match ec with
  | success => false
  | _ => true
  end.

Inductive Status : Type :=
| OK
| INVALID_ARGUMENT            (* "Only sequential access supported" *)
| IO_ERROR (ec : error_code)  (* detail::ToStatus(ec) *)
| SEND_ERROR (code : Z).      (* a status SendGeneric gave up with *)

(** Modelled from the spec: [detail::ToStatus] is in gcs_utils.h, not among
    the sources; an error is "surfaced with code and message". *)
Definition ToStatus (ec : error_code) : Status := IO_ERROR ec.

(** The value of a Range header: [from] and the optional last byte. *)
Definition range_header : Type := (Z * option Z)%type.

(** [SetRange] (lines 35-41): "bytes=from-" and, below [kuint64max], "to-1",
    the subtraction being that of [size_t]. *)
Definition SetRange (from to : Z) : range_header :=
  (from, if to <? kuint64max then Some (wrap (to - 1)) else None).

(** The GET request [Open] sends, as far as it varies. *)
Record request : Type := mkRequest {
  range : option range_header
}.

(** A transport fault: after [fst] more body bytes the read ends with [snd]. *)
Definition fault_plan : Type := option (nat * error_code).

(** The pooled HTTPS connection with its response in flight: the body bytes
    the parser has not been given yet, and the fault ahead, if any. *)
Record connection : Type := mkConnection {
  body : list byte;
  fault : fault_plan
}.

(** The members of [GcsReadFile] and the parser of its base class. *)
Record GcsReadFile : Type := mkFile {
  offs_ : Z;
  size_ : Z;
  https_handle_ : option connection;
  parser_is_done : bool
}.

(** What [SendGeneric] meets on one call. *)
Inductive response : Type :=
| SendFails (code : Z)
| SendOk (content_length : bool) (f : fault_plan).

(** The body a well-behaved server sends for a request. *)
Definition serve (object : list byte) (req : request) : list byte :=
  match range req with
  | None => object
  | Some (from, None) => skipn (Z.to_nat from) object
  | Some (from, Some last) =>
    firstn (Z.to_nat (last + 1 - from)) (skipn (Z.to_nat from) object)
  end.

Definition is_nil {A : Type} (l : list A) : bool :=
  match l with
  | [] => true
  | _ => false
  end.

(** Modelled from the spec: [HttpsClient::Read] is in util/http, not among
    the sources: it "drives one network read" into the buffer the body
    points at, at most [cap] bytes.  The read fills the buffer or ends the
    message, unless the fault ahead strikes first. *)
Definition handle_Read (c : connection) (cap : nat)
  : (list byte * error_code) * connection :=
  let n := Nat.min cap (length (body c)) in
  let deliver (k : nat) (ec : error_code) (f : fault_plan) :=
    (firstn k (body c), ec, mkConnection (skipn k (body c)) f) in
  let finish (f : fault_plan) :=
    deliver n (if is_nil (skipn n (body c)) then success else need_buffer) f in
  match fault c with
  | Some (k, e) =>
    if (k <? n)%nat then deliver k e (Some (0%nat, e))
    else finish (Some ((k - n)%nat, e))
  | None => finish None
  end.

(** Modelled from the spec: [SendGeneric] belongs to
    [detail::ApiSenderBufferBody] (gcs_utils.h, not among the sources): the
    retrying sender that either gives up with a status or leaves a fresh
    parser past the response headers and hands out the connection. *)
Definition SendGeneric (object : list byte) (resp : response) (req : request)
  : Status + (connection * option Z) :=
  match resp with
  | SendFails code => inl (SEND_ERROR code)
  | SendOk with_length f =>
    let b := serve object req in
    inr (mkConnection b f,
         if with_length then Some (Z.of_nat (length b)) else None)
  end.

(** [GcsReadFile::Open] (lines 77-95). *)
Definition Open (object : list byte) (resp : response) (f : GcsReadFile)
  : (Status * GcsReadFile) * request :=
  let req := mkRequest (if offs_ f =? 0 then None
                        else Some (SetRange (offs_ f) kuint64max)) in
  match SendGeneric object resp req with
  | inl st =>
    (st, mkFile (offs_ f) (size_ f) (https_handle_ f) false, req)
  | inr (c, content_length) =>
    let size := match content_length with
                | Some n => wrap n
                | None => size_ f
                end in
    (OK, mkFile (offs_ f) size (Some c) (is_nil (body c)), req)
  end.

(** [StatusObject<size_t>]. *)
Inductive StatusObject : Type :=
| Value (n : nat)
| Error (st : Status).

(** How a call ends: it returns, a [CHECK] aborts the process, or it
    dereferences the handle it has just reset. *)
Inductive outcome : Type :=
| Returned (r : StatusObject)
| CheckFailed
| NullHandle.

(** The caller's buffer after [data] was stored from position [pos] on. *)
Definition write_at (buf : list byte) (pos : nat) (data : list byte) : list byte :=
  firstn pos buf ++ data ++ skipn (pos + length data) buf.

(** What one turn of the loop of [Read] (lines 113-157) comes to. *)
Inductive turn : Type :=
| TurnReturn (o : outcome) (f : GcsReadFile) (buf : list byte)
| TurnReopen (http_read : nat) (f : GcsReadFile) (buf : list byte) (read_sofar : nat).

Definition set_offs (o : Z) (f : GcsReadFile) : GcsReadFile :=
  mkFile o (size_ f) (https_handle_ f) (parser_is_done f).

Definition reset_handle (f : GcsReadFile) : GcsReadFile :=
  mkFile (offs_ f) (size_ f) None (parser_is_done f).

Definition read_turn (f : GcsReadFile) (buf : list byte) (read_sofar : nat) : turn :=
  match https_handle_ f with
  | None => TurnReturn NullHandle f buf
  | Some c =>
    let cap := (length buf - read_sofar)%nat in
    let '(data, ec, c') := handle_Read c cap in
    let left_available := (cap - length data)%nat in
    let http_read := (cap - left_available)%nat in
    let buf' := write_at buf read_sofar data in
    let f1 := mkFile (offs_ f) (size_ f) (Some c') (is_nil (body c')) in
    match ec with
    | success | need_buffer =>
      let f2 := set_offs (wrap (offs_ f1 + Z.of_nat http_read)) f1 in
      if (left_available =? 0)%nat || negb (is_error ec) then
        TurnReturn (Returned (Value (http_read + read_sofar))) f2 buf'
      else TurnReturn CheckFailed f2 buf'
    | partial_message =>
      let f2 := set_offs (wrap (offs_ f1 + Z.of_nat http_read)) f1 in
      TurnReopen http_read (reset_handle f2) buf' (read_sofar + http_read)
    | stream_truncated =>
      TurnReopen http_read (reset_handle f1) buf' read_sofar
    | failure _ =>
      TurnReturn (Returned (Error (ToStatus ec))) f1 buf'
    end
  end.

(** The result of [Read]: how it ended, the reader and the buffer after it,
    the responses not used up, and the requests it sent. *)
Record read_result : Type := mkResult {
  res : outcome;
  file : GcsReadFile;
  buffer : list byte;
  unused : list response;
  sent : list request
}.

Definition with_request (req : request) (r : read_result) : read_result :=
  mkResult (res r) (file r) (buffer r) (unused r) (req :: sent r).

(** The loop of lines 110-160.  Each reopening uses up one response; with
    none left the sender gives up. *)
Fixpoint read_loop (object : list byte) (plan : list response)
  (f : GcsReadFile) (buf : list byte) (read_sofar : nat) : read_result :=
  if (read_sofar <? length buf)%nat then
    match read_turn f buf read_sofar with
    | TurnReturn o f' buf' => mkResult o f' buf' plan []
    | TurnReopen _ f' buf' read_sofar' =>
      match plan with
      | [] =>
        let '(st, f'', req) := Open object (SendFails 0) f' in
        mkResult (Returned (Error st)) f'' buf' [] [req]
      | resp :: plan' =>
        let '(st, f'', req) := Open object resp f' in
        match st with
        | OK => with_request req (read_loop object plan' f'' buf' read_sofar')
        | _ => mkResult (Returned (Error st)) f'' buf' plan' [req]
        end
      end
    end
  else mkResult (Returned (Value read_sofar)) f buf plan [].

(** [GcsReadFile::Read] (lines 97-161); [buf] is the caller's range. *)
Definition Read (object : list byte) (plan : list response) (f : GcsReadFile)
  (offset : Z) (buf : list byte) : read_result :=
  if is_nil buf then mkResult CheckFailed f buf plan []
  else if negb (offset =? offs_ f) then
    mkResult (Returned (Error INVALID_ARGUMENT)) f buf plan []
  else if parser_is_done f then
    mkResult (Returned (Value 0)) f buf plan []
  else read_loop object plan f buf 0.



(** **** Notions the properties of the reader are stated with *)

#[local] Open Scope nat_scope.

(** The reader is in step with the server: it has consumed [pos] bytes of
    the object, and its connection will deliver the rest, with the fault
    [fl] ahead. *)
Definition synced (object : list byte) (pos : nat) (fl : fault_plan)
  (f : GcsReadFile) : Prop :=
  offs_ f = Z.of_nat pos /\
  https_handle_ f = Some (mkConnection (skipn pos object) fl) /\
  parser_is_done f = is_nil (skipn pos object) /\
  pos <= length object.

Definition resumable (ec : error_code) : bool :=
  match ec with
  | partial_message | stream_truncated => true
  | _ => false
  end.

(** Every fault ahead is a truncation, and the sender answers the reopening
    that follows it. *)
Fixpoint covered (fl : fault_plan) (plan : list response) : Prop :=
  match fl with
  | None => True
  | Some (_, e) =>
    resumable e = true /\
    match plan with
    | SendOk _ fl' :: plan' => covered fl' plan'
    | _ => False
    end
  end.

Definition strikes (fl : fault_plan) (n : nat) : bool :=
  match fl with
  | Some (k, _) => k <? n
  | None => false
  end.

Definition fault_after (fl : fault_plan) (n : nat) : fault_plan :=
  match fl with
  | Some (k, e) => Some (k - n, e)
  | None => None
  end.

(** An object of five bytes and a reader that has consumed two of them. *)
Definition demo_object : list byte :=
  [Byte.x67; Byte.x61; Byte.x69; Byte.x61; Byte.x21].

Definition demo_reader : GcsReadFile :=
  mkFile 2 3 (Some (mkConnection [Byte.x69; Byte.x61; Byte.x21] None)) false.


End Gcs.

(** *** util/asio/accept_server.cc *)

Module AcceptServer.

(** A handler is named by the number of handlers accepted before it. *)
Definition handler : Type := nat.

(** What reaches the accept-loop fiber while it is suspended: the outcome of
    an accept, an exception, or a handler fiber that unlinks itself and
    returns.  [Thrown] is an exception out of [AcceptFiber] or out of the
    logging of line 62, before the handler is linked; [handler->Run()] only
    starts the handler's fiber and is taken not to throw. *)
Inductive input : Type :=
| Accepted
| AcceptFailed
| Thrown
| HandlerReturned (h : handler).

Inductive event : Type :=
| EvLink (h : handler)    (* clist.push_back of the handler *)
| EvRun (h : handler)     (* handler->Run() *)
| EvCaught                (* LOG(WARNING) of the catch clause *)
| EvClose (h : handler)   (* it->socket().close() *)
| EvNotifyDone            (* done_.notify() *)
| EvPostFiber             (* asio::post of the fiber running RunInIOThread *)
| EvStop                  (* Stop() *)
| EvWaitDone.             (* done_.wait() *)

(** Modelled from the spec: [ConnectionHandler] is in
    connection_handler.cc, not among the sources: "a handler self-unlinks
    immediately before its fiber returns". *)
Definition unlink (h : handler) (clist : list handler) : list handler :=
  filter (fun x => negb (x =? h)%nat) clist.

Definition later {A : Type} (evs : list event) (r : list event * A) : list event * A :=
  (evs ++ fst r, snd r).

(** Where the accept loop stands when it stops reading its inputs. *)
Record loop_end : Type := mkLoopEnd {
  exited : bool;                (* false: still suspended in async_accept *)
  made : nat;                   (* handlers accepted *)
  live : list handler;          (* clist *)
  pending : list input          (* inputs not read *)
}.

(** The loop of lines 56-70 and the catch clause. *)
Fixpoint accept_loop (script : list input) (next : nat) (clist : list handler)
  : list event * loop_end :=
  match script with
  | [] => ([], mkLoopEnd false next clist [])
  | HandlerReturned h :: rest => accept_loop rest next (unlink h clist)
  | Accepted :: rest =>
    later [EvLink next; EvRun next] (accept_loop rest (S next) (clist ++ [next]))
  | AcceptFailed :: rest => ([], mkLoopEnd true next clist rest)
  | Thrown :: rest => ([EvCaught], mkLoopEnd true next clist rest)
  end.

Definition is_nil {A : Type} (l : list A) : bool :=
  match l with
  | [] => true
  | _ => false
  end.

(** [empty_list.wait(lk, pred)] of line 85: true when the wait returns. *)
Fixpoint wait_empty (script : list input) (clist : list handler) : bool * list handler :=
  if is_nil clist then (true, clist)
  else
    match script with
    | [] => (false, clist)
    | HandlerReturned h :: rest => wait_empty rest (unlink h clist)
    | _ :: rest => wait_empty rest clist
    end.

(** The members of [AcceptServer] that [Run] and [Wait] use; [done_] holds
    whether the Done was notified. *)
Record server : Type := mkServer {
  was_run_ : bool;
  done_ : bool
}.

Record run_result : Type := mkRun {
  trace : list event;
  left_loop : bool;
  accepted : nat;
  clist_at_exit : list handler;
  clist_ : list handler;
  after : server
}.

(** [AcceptServer::RunInIOThread] (lines 48-90). *)
Definition RunInIOThread (script : list input) (s : server) : run_result :=
  let '(evs, e) := accept_loop script 0 [] in
  if exited e then
    let closes := map EvClose (live e) in
    let '(emptied, clist) := wait_empty (pending e) (live e) in
    if emptied then
      mkRun (evs ++ closes ++ [EvNotifyDone]) true (made e) (live e) clist
            (mkServer (was_run_ s) true)
    else
      mkRun (evs ++ closes) true (made e) (live e) clist s
  else mkRun evs false (made e) (live e) (live e) s.

(** [AcceptServer::Run] (lines 106-112). *)
Definition Run (s : server) : server * list event :=
  (mkServer true (done_ s), [EvPostFiber]).

(** [AcceptServer::Wait] (lines 114-117): the trace up to its return. *)
Definition Wait (s : server) : list event :=
  if was_run_ s then [EvWaitDone] else [].

(** Whether [Wait] returns: [done_.wait()] returns once the Done is set. *)
Definition Wait_returns (s : server) : bool :=
  if was_run_ s then done_ s else true.

(** Modelled from the spec: the constructor and [Stop] are in
    accept_server.h, not among the sources; a constructed server has not been
    run and its Done is unset. *)
Definition constructed : server := mkServer false false.

(** [AcceptServer::~AcceptServer] (lines 43-46). *)
Definition destroy (s : server) : list event :=
  EvStop :: Wait s.

(** **** Notions the properties of the server are stated with *)

#[local] Open Scope nat_scope.

(** A handler returns only after it was accepted. *)
Fixpoint well_formed (script : list input) (next : nat) : bool :=
  match script with
  | [] => true
  | HandlerReturned h :: rest => (h <? next)%nat && well_formed rest next
  | Accepted :: rest => well_formed rest (S next)
  | _ :: rest => well_formed rest next
  end.

Definition returned (script : list input) (h : handler) : Prop :=
  In (HandlerReturned h) script.

(** The events of the accept loop itself. *)
Definition accept_event (e : event) : bool :=
  match e with
  | EvLink _ | EvRun _ | EvCaught => true
  | _ => false
  end.

Definition demo_inputs : list input :=
  [Accepted; Accepted; HandlerReturned 0; AcceptFailed; HandlerReturned 1].

End AcceptServer.

(** *** util/fibers/fiberqueue_threadpool.cc *)

Module FiberQueueThreadPool.

(** A closure, by what a worker can see of it: a name, and whether calling
    it throws a [std::exception]. *)
Record Func : Type := mkFunc {
  tag : nat;
  throws : bool
}.

(** Modelled from the spec: [boost::fibers::buffered_channel] is a library
    type: "after Close, no further push succeeds; pop drains remaining
    elements then returns Closed". *)
Record channel : Type := mkChannel {
  items : list Func;
  closed : bool
}.

Inductive channel_op_status : Type :=
| op_success (f : Func) (ch : channel)
| op_closed
| op_blocks.       (* empty and open: the caller stays suspended *)

Definition pop (ch : channel) : channel_op_status :=
  match items ch with
  | f :: q => op_success f (mkChannel q (closed ch))
  | [] => if closed ch then op_closed else op_blocks
  end.

Definition close (ch : channel) : channel :=
  mkChannel (items ch) true.

Inductive thread : Type :=
| Running
| Exited.

(** The pool: its members, the closures run so far in the order they were
    popped, and whether [LOG(FATAL)] has ended the process. *)
Record pool : Type := mkPool {
  input_ : channel;
  workers_ : list thread;
  ran : list nat;
  aborted : bool
}.

Definition is_running (t : thread) : bool :=
  match t with
  | Running => true
  | Exited => false
  end.

Fixpoint set_nth {A : Type} (i : nat) (x : A) (l : list A) : list A :=
  match l, i with
  | [], _ => []
  | _ :: t, O => x :: t
  | y :: t, S j => y :: set_nth j x t
  end.

(** One turn of the loop of [WorkerFunction] (lines 48-60) in worker [i]. *)
Definition WorkerFunction_turn (i : nat) (p : pool) : pool :=
  if aborted p then p
  else
    match nth_error (workers_ p) i with
    | Some Running =>
      match pop (input_ p) with
      | op_closed => mkPool (input_ p) (set_nth i Exited (workers_ p)) (ran p) false
      | op_success f ch =>
        if throws f then mkPool ch (workers_ p) (ran p) true
        else mkPool ch (workers_ p) (ran p ++ [tag f]) false
      | op_blocks => p
      end
    | _ => p
    end.

(** The workers taking turns as the scheduler [sched] names them. *)
Fixpoint run_workers (sched : list nat) (p : pool) : pool :=
  match sched with
  | [] => p
  | i :: sched' => run_workers sched' (WorkerFunction_turn i p)
  end.

Definition all_exited (p : pool) : bool :=
  forallb (fun t => negb (is_running t)) (workers_ p).

(** The pool once line 39 of [Shutdown] has closed the channel. *)
Definition closing (p : pool) : pool :=
  mkPool (close (input_ p)) (workers_ p) (ran p) (aborted p).

(** [FiberQueueThreadPool::Shutdown] (lines 36-44) while the workers run as
    [sched] says.  [None]: a [pthread_join] has not returned, or the
    process is gone. *)
Definition Shutdown (sched : list nat) (p : pool) : option pool :=
  let p2 := run_workers sched (closing p) in
  if negb (aborted p2) && all_exited p2 then
    Some (mkPool (input_ p2) [] (ran p2) false)
  else None.

(** **** Notions the properties of the pool are stated with *)

#[local] Open Scope nat_scope.

Definition harmless (f : Func) : bool := negb (throws f).

(** What the workers of a pool whose channel was closed in [p0] have done
    by [p]: they have popped the first [k] closures, in order; either all
    of them ran, or the last one threw and ended the process; and a worker
    has exited only once the channel was empty. *)
Definition drained (p0 p : pool) : Prop :=
  closed (input_ p) = true /\
  length (workers_ p) = length (workers_ p0) /\
  (forall i, nth_error (workers_ p0) i = Some Running ->
             nth_error (workers_ p) i = Some Exited ->
             items (input_ p) = [] /\ aborted p = false) /\
  (forall i, nth_error (workers_ p0) i = Some Exited ->
             nth_error (workers_ p) i = Some Exited) /\
  exists k,
    items (input_ p) = skipn k (items (input_ p0)) /\
    if aborted p
    then exists f, nth_error (items (input_ p0)) (k - 1) = Some f /\ 0 < k /\
                   throws f = true /\
                   forallb harmless (firstn (k - 1) (items (input_ p0))) = true /\
                   ran p = ran p0 ++ map tag (firstn (k - 1) (items (input_ p0)))
    else forallb harmless (firstn k (items (input_ p0))) = true /\
         ran p = ran p0 ++ map tag (firstn k (items (input_ p0))).

Definition demo_pool : pool :=
  mkPool (mkChannel [mkFunc 7 false; mkFunc 8 false; mkFunc 9 false] false)
    [Running; Running] [] false.

End FiberQueueThreadPool.

(** *** More of the same files *)

(** Runs of the channel of [ClientChannel]: any number of steps. *)
Module ChannelRuns.

Import ClientChannel.

Inductive steps : system -> system -> Prop :=
| steps_refl : forall s, steps s s
| steps_step : forall s l s' s'', step s l s' -> steps s' s'' -> steps s s''.

(** No fiber, no flag, [Shutdown] under way and nobody at a lock. *)
Definition shut_down (s : system) : Prop :=
  shutting_down_ (chan s) = true /\ reconnect_active_ (chan s) = false /\
  reactor s = Idle /\ fibers s = 0%nat.

End ChannelRuns.

(** The rest of [GcsReadFile] (gcs_read_file.cc, lines 61-63 and 164-174). *)
Module GcsFile.

Import Gcs.

Inductive event : Type :=
| EvScheduleReconnect.   (* https_handle_->schedule_reconnect() *)

(** [GcsReadFile::Size] (line 61). *)
Definition Size (f : GcsReadFile) : Z := size_ f.

(** [GcsReadFile::Handle] (line 63). *)
Definition Handle (f : GcsReadFile) : Z := -1.

(** [GcsReadFile::Close] (lines 164-174).  [has_parser] is [parser()] as a
    condition: the parser belongs to [detail::ApiSenderBufferBody], which is
    not among the sources; [parser_is_done] is read only when it holds. *)
Definition Close (has_parser : bool) (f : GcsReadFile)
  : (Status * GcsReadFile) * list event :=
  let evs := match https_handle_ f with
             | Some _ =>
               if has_parser then
                 if negb (parser_is_done f) then [EvScheduleReconnect] else []
               else []
             | None => []
             end in
  (OK, reset_handle f, evs).

End GcsFile.

(** Words for the traces of [AcceptServer::RunInIOThread]. *)
Module AcceptTrace.

Import AcceptServer.

(** The inputs that end the accept loop. *)
Definition is_exit (x : input) : bool :=
  match x with
  | AcceptFailed | Thrown => true
  | _ => false
  end.

(** How many handlers a run of inputs accepts. *)
Definition accepts (pre : list input) : nat :=
  length (filter (fun x => match x with Accepted => true | _ => false end) pre).

(** Whether handler [h] returns in a run of inputs. *)
Definition returned_in (pre : list input) (h : handler) : bool :=
  existsb (fun x => match x with HandlerReturned h' => (h' =? h)%nat | _ => false end) pre.

(** Lines 64-68 for one handler. *)
Definition link_run (h : handler) : list event := [EvLink h; EvRun h].

Definition caught (x : input) : list event :=
  match x with
  | Thrown => [EvCaught]
  | _ => []
  end.

End AcceptTrace.

(** The constructor and the destructor of [FiberQueueThreadPool]. *)
Module PoolLife.

Import FiberQueueThreadPool.

(** [FiberQueueThreadPool::FiberQueueThreadPool] (lines 14-26).
    [hardware_concurrency] is what [std::thread::hardware_concurrency()]
    answers; every thread starts in [WorkerFunction]. *)
Definition construct (hardware_concurrency num_threads : nat) : pool :=
  let n := if (num_threads =? 0)%nat then hardware_concurrency else num_threads in
  mkPool (mkChannel [] false) (repeat Running n) [] false.

(** [FiberQueueThreadPool::~FiberQueueThreadPool] (lines 28-34). *)
Definition destructor (sched : list nat) (p : pool) : option pool :=
  match workers_ p with
  | [] => Some p
  | _ :: _ => Shutdown sched p
  end.

End PoolLife.

(** *** examples/mr3.cc *)

Module Mr3.

Definition file_name : Type := String.string.

(** The file type field of [st_mode] and its values, as <sys/stat.h> of
    Linux defines them (octal 0170000, 0140000, 0120000, 0100000, 0060000,
    0040000, 0020000 and 0010000). *)
Definition S_IFMT : Z := 61440.
Definition S_IFSOCK : Z := 49152.
Definition S_IFLNK : Z := 40960.
Definition S_IFREG : Z := 32768.
Definition S_IFBLK : Z := 24576.
Definition S_IFDIR : Z := 16384.
Definition S_IFCHR : Z := 8192.
Definition S_IFIFO : Z := 4096.

(** [file_util::StatShort], the two members [Run] reads. *)
Record StatShort : Type := mkStat {
  name : file_name;
  st_mode : Z
}.

(** [pb::WireFormat::Type]: [TXT], and the other values of the enum. *)
Inductive WireFormat : Type :=
| TXT
| OtherFormat (code : nat).

(** The message of an [InputBase], as [Run] reads it: [format] is [None]
    when [has_format()] is false, [file_spec] holds the [url_glob] of each
    file spec. *)
Record InputMsg : Type := mkInput {
  msg_name : String.string;
  format : option WireFormat;
  file_spec : list String.string
}.

Inductive outcome : Type :=
| Returned
| CheckFailed.

Inductive event : Type :=
| EvLogRunning (n : String.string)      (* line 71 *)
| EvAwaitOnAll (tp : WireFormat)        (* lines 73-77: a ProcessFiles fiber per IO thread *)
| EvPush (f : file_name)                (* line 83 *)
| EvConsole (f : file_name)             (* line 99 *)
| EvLogSkipping (f : file_name)         (* line 102 *)
| EvLogProcessing (f : file_name)       (* line 105 *)
| EvProcessText (f : file_name)         (* line 109 *)
| EvFatal.                              (* line 113 *)

(** The test of line 82: [v.st_mode & S_IFREG], read as a [bool]. *)
Definition is_wanted (v : StatShort) : bool :=
  negb (Z.land (st_mode v) S_IFREG =? 0).

(** The inner loop, lines 81-86.  A push into a closed queue answers
    [closed] and fails the [CHECK_EQ] of line 84; a push into a full queue
    only waits. *)
Fixpoint push_paths (queue_closed : bool) (paths : list StatShort) : bool * list event :=
  match paths with
  | [] => (true, [])
  | v :: rest =>
    if is_wanted v then
      if queue_closed then (false, [EvPush (name v)])
      else let '(ok, evs) := push_paths queue_closed rest in (ok, EvPush (name v) :: evs)
    else push_paths queue_closed rest
  end.

(** The outer loop, lines 79-87; [StatFiles] is what [file_util::StatFiles]
    answers for a glob. *)
Fixpoint push_specs (StatFiles : String.string -> list StatShort) (queue_closed : bool)
    (specs : list String.string) : bool * list event :=
  match specs with
  | [] => (true, [])
  | glob :: rest =>
    let '(ok, evs) := push_paths queue_closed (StatFiles glob) in
    if ok then
      let '(ok', evs') := push_specs StatFiles queue_closed rest in (ok', evs ++ evs')
    else (false, evs)
  end.

Definition is_nil {A : Type} (l : list A) : bool :=
  match l with
  | [] => true
  | _ :: _ => false
  end.

(** [Executor::Run] (lines 68-88); [input] is [None] for a null pointer. *)
Definition Run (input : option InputMsg) (StatFiles : String.string -> list StatShort)
    (queue_closed : bool) : outcome * list event :=
  match input with
  | None => (CheckFailed, [])
  | Some m =>
    if is_nil (file_spec m) then (CheckFailed, [])
    else
      match format m with
      | None => (CheckFailed, [])
      | Some tp =>
        let '(ok, evs) := push_specs StatFiles queue_closed (file_spec m) in
        (if ok then Returned else CheckFailed,
         EvLogRunning (msg_name m) :: EvAwaitOnAll tp :: evs)
      end
  end.

(** How a run of [ProcessFiles] ends: it leaves the loop, it stays
    suspended in [pop], or [LOG(FATAL)] ends the process. *)
Inductive ending : Type :=
| LoopLeft
| Suspended
| Fatal.

Definition later (evs : list event) (r : ending * list event) : ending * list event :=
  (fst r, evs ++ snd r).

(** [Executor::ProcessFiles] (lines 90-117).  [queue] is what [pop] hands
    out, each name with whether [OpenFiberReadFile] succeeds on it;
    [closed] tells whether the queue is closed once it is empty. *)
Fixpoint ProcessFiles (tp : WireFormat) (queue : list (file_name * bool)) (closed : bool)
    : ending * list event :=
  match queue with
  | [] => (if closed then LoopLeft else Suspended, [])
  | (f, opens) :: rest =>
    if opens then
      match tp with
      | TXT =>
        later [EvConsole f; EvLogProcessing f; EvProcessText f] (ProcessFiles tp rest closed)
      | OtherFormat _ => (Fatal, [EvConsole f; EvLogProcessing f; EvFatal])
      end
    else later [EvConsole f; EvLogSkipping f] (ProcessFiles tp rest closed)
  end.

(** **** Notions the properties of the executor are stated with *)

(** The file type of a mode. *)
Definition file_type (mode : Z) : Z := Z.land mode S_IFMT.

Definition pushed (evs : list event) : list file_name :=
  flat_map (fun e => match e with EvPush f => [f] | _ => [] end) evs.

Definition processed (evs : list event) : list file_name :=
  flat_map (fun e => match e with EvProcessText f => [f] | _ => [] end) evs.

Definition popped (evs : list event) : list file_name :=
  flat_map (fun e => match e with EvConsole f => [f] | _ => [] end) evs.

Import String.StringSyntax.

#[local] Open Scope string_scope.

Definition demo_queue : list (file_name * bool) :=
  [("a.txt", false); ("b.txt", true); ("c.txt", true)].

Definition demo_input : InputMsg := mkInput "inp1" (Some TXT) ["data/*"].

(** A regular file (mode 0100644) and a directory (mode 040755). *)
Definition demo_stat (glob : String.string) : list StatShort :=
  [mkStat "data/a.txt" 33188; mkStat "data/sub" 16877].

End Mr3.

(** ** Part II: the properties *)

(** *** ClientChannel *)

Section ClientChannelFacts.

Import ClientChannel Backoff.

Lemma dur_at_0 : dur_at 0 = 100.
Proof. reflexivity. Qed.

Lemma next_sleep_dur_at k : 0 <= k -> next_sleep_dur (dur_at k) = dur_at (k + 1).
Proof.
  intros Hk. unfold next_sleep_dur, dur_at.
  destruct (Z.ltb_spec (Z.min (100 * (k + 1)) 1000) 1000); lia.
Qed.

Lemma sleeps_app l1 l2 : sleeps (l1 ++ l2) = sleeps l1 + sleeps l2.
Proof. unfold sleeps. rewrite filter_app, length_app. lia. Qed.

Lemma sleeps_nonneg l : 0 <= sleeps l.
Proof. unfold sleeps. lia. Qed.

Lemma sleeps_quiet l : forallb quiet l = true -> sleeps l = 0.
Proof.
  induction l as [|e l IH]; simpl; [reflexivity|].
  intros H. apply andb_true_iff in H as [He Hl]. specialize (IH Hl).
  unfold sleeps in *. simpl. unfold quiet in He.
  destruct (is_sleep e); [rewrite orb_true_r in He; discriminate|assumption].
Qed.

(** Where a first check can sit in a trace that starts with quiet events. *)
Lemma first_check_split (l1 l2 pre post : list event) (x y : event) :
  forallb quiet l1 = true -> quiet y = false ->
  l1 ++ x :: l2 = pre ++ y :: post ->
  (pre = l1 /\ y = x /\ post = l2) \/
  (exists pre', pre = l1 ++ x :: pre' /\ l2 = pre' ++ y :: post).
Proof.
  revert pre. induction l1 as [|e l1 IH]; intros pre Hq Hy Heq.
  - destruct pre as [|p pre]; simpl in *.
    + injection Heq as -> ->. now left.
    + injection Heq as -> ->. right. now exists pre.
  - simpl in Hq. apply andb_true_iff in Hq as [He Hq].
    destruct pre as [|p pre]; simpl in Heq.
    + injection Heq as -> _. rewrite Hy in He. discriminate.
    + injection Heq as -> Heq. destruct (IH pre Hq Hy Heq) as [(-> & -> & ->)|(pre' & -> & ->)].
      * now left.
      * right. now exists pre'.
Qed.

Lemma connect_cb_quiet ec s : forallb quiet (snd (connect_cb ec s)) = true.
Proof. unfold connect_cb. simpl. now destruct (is_error ec). Qed.

(** An attempt neither checks the deadline nor sleeps. *)
Lemma attempt_quiet until it s : forallb quiet (snd (attempt until it s)) = true.
Proof.
  unfold attempt.
  destruct (resolve_ok it); [|reflexivity].
  destruct (cb_first it); simpl;
    repeat match goal with
           | |- context [if ?b then _ else _] => destruct b; simpl
           end; reflexivity.
Qed.

(** The schedule of one run of the loop, started after [k] sleeps. *)
Lemma connect_loop_schedule script :
  forall until k s pre shut now post,
    0 <= k ->
    snd (connect_loop until (dur_at k) script s) = pre ++ EvDeadlineCheck shut now :: post ->
    if shut || (until <=? now + ms 2)
    then post = [] /\
         fst (connect_loop until (dur_at k) script s)
         = (ExitAborted, snd (fst (connect_loop until (dur_at k) script s))) /\
         status_ (snd (fst (connect_loop until (dur_at k) script s))) = operation_aborted
    else exists post',
         post = EvSleep (dur_at (k + sleeps pre))
                  (Z.min (now + ms (dur_at (k + sleeps pre))) (until - ms 2)) :: post'.
Proof.
  induction script as [|it script IH]; intros u k s pre shut now post Hk; simpl.
  - destruct (shutting_down_ s || negb (is_error (status_ s))); simpl;
      intros H; destruct pre; discriminate.
  - destruct (shutting_down_ s || negb (is_error (status_ s))); simpl;
      [intros H; destruct pre; discriminate|].
    destruct (negb (now_head it <? u)); simpl;
      [intros H; destruct pre; discriminate|].
    pose proof (attempt_quiet u it s) as Hq.
    destruct (attempt u it s) as [[connected s1] evs]. simpl in Hq.
    destruct connected; simpl.
    + intros H. exfalso.
      assert (Hin : In (EvDeadlineCheck shut now) evs)
        by (rewrite H; apply in_elt).
      rewrite forallb_forall in Hq. apply Hq in Hin. discriminate.
    + destruct (shutting_down_ s1 || (u <=? now_check it + ms 2)) eqn:Hc; simpl.
      * intros H.
        destruct (first_check_split evs [] pre post _ (EvDeadlineCheck shut now) Hq eq_refl H)
          as [(-> & Hy & ->)|(pre' & _ & Hnil)].
        -- injection Hy as -> ->. rewrite Hc. auto.
        -- destruct pre'; discriminate.
      * rewrite <- app_assoc. simpl. intros H.
        destruct (first_check_split evs _ pre post _ (EvDeadlineCheck shut now) Hq eq_refl H)
          as [(-> & Hy & ->)|(pre' & -> & Hrest)].
        -- injection Hy as -> ->. rewrite Hc.
           rewrite (sleeps_quiet _ Hq), Z.add_0_r. eauto.
        -- destruct pre' as [|e pre']; [discriminate|].
           injection Hrest as <- Hrest.
           rewrite next_sleep_dur_at in Hrest |- * by assumption.
           specialize (IH u (k + 1) _ pre' shut now post ltac:(lia) Hrest).
           rewrite !sleeps_app, (sleeps_quiet _ Hq).
           replace (k + (0 + sleeps (EvDeadlineCheck (shutting_down_ s1) (now_check it)
                                       :: EvSleep (dur_at k)
                                            (Z.min (now_check it + ms (dur_at k)) (u - ms 2))
                                       :: pre')))
             with (k + 1 + sleeps pre')
             by (unfold sleeps; simpl; lia).
           destruct (shut || (u <=? now + ms 2)); [|exact IH].
           destruct IH as (Hp & He & Hs).
           destruct (connect_loop u (dur_at (k + 1)) script
                       (observe_shutdown (shut_sleep it) s1)) as [[e s'] evs'].
           simpl in *. injection He as ->. auto.
Qed.

(** Every sleep of the loop directly follows a test of line 98. *)
Lemma connect_loop_sleep_after_check script :
  forall until dur s pre d t post,
    snd (connect_loop until dur script s) = pre ++ EvSleep d t :: post ->
    exists pre' shut now, pre = pre' ++ [EvDeadlineCheck shut now].
Proof.
  induction script as [|it script IH]; intros u dur s pre d t post; simpl.
  - destruct (shutting_down_ s || negb (is_error (status_ s))); simpl;
      intros H; destruct pre; discriminate.
  - destruct (shutting_down_ s || negb (is_error (status_ s))); simpl;
      [intros H; destruct pre; discriminate|].
    destruct (negb (now_head it <? u)); simpl;
      [intros H; destruct pre; discriminate|].
    pose proof (attempt_quiet u it s) as Hq.
    destruct (attempt u it s) as [[connected s1] evs]. simpl in Hq.
    assert (Hnot : forall l, evs ++ l = pre ++ EvSleep d t :: post ->
                             forallb quiet l = true -> False).
    { intros l H Hl.
      assert (Hin : In (EvSleep d t) (evs ++ l)) by (rewrite H; apply in_elt).
      assert (Hall : forallb quiet (evs ++ l) = true)
        by (rewrite forallb_app, Hq, Hl; reflexivity).
      rewrite forallb_forall in Hall. apply Hall in Hin. discriminate. }
    destruct connected; simpl.
    + intros H. exfalso. apply (Hnot []); [rewrite app_nil_r; exact H|reflexivity].
    + destruct (shutting_down_ s1 || (u <=? now_check it + ms 2)); simpl.
      * intros H.
        destruct (first_check_split evs [] pre post _ (EvSleep d t) Hq eq_refl H)
          as [(_ & Hy & _)|(pre' & _ & Hnil)]; [discriminate|].
        destruct pre'; discriminate.
      * rewrite <- app_assoc. simpl. intros H.
        destruct (first_check_split evs _ pre post _ (EvSleep d t) Hq eq_refl H)
          as [(_ & Hy & _)|(pre' & -> & Hrest)]; [discriminate|].
        destruct pre' as [|e pre'].
        -- eexists evs, _, _. reflexivity.
        -- injection Hrest as <- Hrest.
           destruct (IH _ _ _ _ _ _ _ Hrest) as (pre'' & shut & now & ->).
           exists (evs ++ EvDeadlineCheck (shutting_down_ s1) (now_check it)
                       :: EvSleep dur (Z.min (now_check it + ms dur) (u - ms 2)) :: pre''),
             shut, now.
           rewrite <- app_assoc. reflexivity.
Qed.

Lemma schedule_app l1 l2 : schedule (l1 ++ l2) = schedule l1 ++ schedule l2.
Proof. apply filter_app. Qed.

Lemma schedule_quiet l : forallb quiet l = true -> schedule l = [].
Proof.
  induction l as [|e l IH]; simpl; [reflexivity|].
  intros H. apply andb_true_iff in H as [He Hl]. rewrite He. simpl. auto.
Qed.

Lemma backoff_app until l1 :
  forall k l2,
    backoff until k (l1 ++ l2)
    = backoff until k l1 ++ backoff until (k + Z.of_nat (length l1)) l2.
Proof.
  induction l1 as [|it l1 IH]; intros k l2; simpl backoff; simpl app.
  - now rewrite Z.add_0_r.
  - rewrite IH.
    replace (k + 1 + Z.of_nat (length l1)) with (k + Z.of_nat (length (it :: l1)))
      by (simpl length; lia).
    reflexivity.
Qed.

(** A failed attempt does not return, and leaves [shutting_down_] as the
    shutting down thread set it meanwhile. *)
Lemma attempt_failed u it s :
  is_error (status_ s) = true ->
  attempt_fails it = true ->
  fst (fst (attempt u it s)) = false /\
  shutting_down_ (snd (fst (attempt u it s))) = shutting_down_ s || shut_attempt it.
Proof.
  unfold attempt_fails, attempt, connect_cb, observe_shutdown. intros Hs Hf.
  destruct (resolve_ok it); [|simpl; auto].
  destruct (cb_first it); simpl in *.
  - destruct (is_error (connect_ec it)); [|discriminate]. simpl.
    destruct (timer_fired it); simpl; auto.
  - rewrite Hs. simpl. destruct (timer_fired it); simpl; auto.
Qed.

(** After a failed resolve or connect the status is still an error. *)
Lemma attempt_still_error u it s :
  is_error (status_ s) = true ->
  negb (resolve_ok it) || is_error (connect_ec it) = true ->
  is_error (status_ (snd (fst (attempt u it s)))) = true.
Proof.
  unfold attempt, connect_cb, observe_shutdown. intros Hs Hf.
  destruct (resolve_ok it); [|simpl; auto].
  simpl in Hf.
  destruct (cb_first it); simpl in *.
  - rewrite Hf. simpl. destruct (timer_fired it); simpl; auto.
  - rewrite Hs. simpl. destruct (timer_fired it); simpl; auto.
Qed.

(** One turn of the loop on a failed attempt, by what line 98 finds. *)
Lemma connect_loop_failed_turn u dur it rest s :
  shutting_down_ s = false ->
  is_error (status_ s) = true ->
  now_head it < u ->
  attempt_fails it = true ->
  connect_loop u dur (it :: rest) s
  = if shut_attempt it || (u <=? now_check it + ms 2)
    then (ExitAborted,
          set_status operation_aborted (snd (fst (attempt u it s))),
          snd (attempt u it s) ++ [EvDeadlineCheck (shut_attempt it) (now_check it)])
    else later (snd (attempt u it s)
                  ++ [EvDeadlineCheck false (now_check it);
                      EvSleep dur (Z.min (now_check it + ms dur) (u - ms 2))])
           (connect_loop u (next_sleep_dur dur) rest
              (observe_shutdown (shut_sleep it) (snd (fst (attempt u it s))))).
Proof.
  intros Hsd Hs Hnow Hf. cbn [connect_loop].
  rewrite Hsd, Hs. cbn [negb orb].
  replace (now_head it <? u) with true by (symmetry; apply Z.ltb_lt; exact Hnow).
  cbn [negb].
  destruct (attempt_failed u it s Hs Hf) as [Hb Hsd1].
  destruct (attempt u it s) as [[b s1] evs]. cbn [fst snd] in *. subst b.
  rewrite Hsd1, Hsd. cbn [orb].
  destruct (shut_attempt it); cbn [orb]; [reflexivity|].
  destruct (u <=? now_check it + ms 2); reflexivity.
Qed.

(** The loop over iterations that retry: each leaves its check and its
    sleep, and the loop goes on behind them with the next duration. *)
Lemma connect_loop_retries u fails :
  forall k s rest,
    0 <= k ->
    shutting_down_ s = false ->
    is_error (status_ s) = true ->
    forallb (retries u) fails = true ->
    exists s' pre,
      shutting_down_ s' = false /\
      is_error (status_ s') = true /\
      connect_loop u (dur_at k) (fails ++ rest) s
      = later pre (connect_loop u (dur_at (k + Z.of_nat (length fails))) rest s') /\
      schedule pre = backoff u k fails.
Proof.
  induction fails as [|it fails IH]; intros k s rest Hk Hsd Hs Hall.
  - exists s, []. rewrite Z.add_0_r. unfold later. simpl.
    destruct (connect_loop u (dur_at k) rest s) as [[e s'] evs]. auto.
  - simpl in Hall. apply andb_true_iff in Hall as [Hit Hall].
    unfold retries in Hit.
    apply andb_true_iff in Hit as [Hit Hss].
    apply andb_true_iff in Hit as [Hit Hchk].
    apply andb_true_iff in Hit as [Hit Hsa].
    apply andb_true_iff in Hit as [Hnow Herr].
    apply Z.ltb_lt in Hnow.
    apply negb_true_iff in Hss, Hchk, Hsa.
    assert (Hf : attempt_fails it = true).
    { unfold attempt_fails. destruct (resolve_ok it); [|reflexivity].
      simpl in Herr. rewrite Herr. now rewrite andb_false_r. }
    simpl app.
    rewrite (connect_loop_failed_turn u (dur_at k) it (fails ++ rest) s Hsd Hs Hnow Hf).
    rewrite Hsa, Hchk, Hss. cbn [orb].
    destruct (attempt_failed u it s Hs Hf) as [_ Hsd1].
    rewrite Hsd, Hsa in Hsd1. cbn [orb] in Hsd1.
    pose proof (attempt_still_error u it s Hs Herr) as Hs1.
    pose proof (attempt_quiet u it s) as Hq.
    set (s1 := snd (fst (attempt u it s))) in *.
    set (evs := snd (attempt u it s)) in *.
    assert (Hobs : observe_shutdown false s1 = s1).
    { clear - Hsd1. generalize dependent s1. intros [st sd ra] H. simpl in H.
      subst sd. reflexivity. }
    rewrite Hobs, next_sleep_dur_at by exact Hk.
    destruct (IH (k + 1) s1 rest ltac:(lia) Hsd1 Hs1 Hall) as (s' & pre & H1 & H2 & H3 & H4).
    exists s', ((evs ++ [EvDeadlineCheck false (now_check it);
                         EvSleep (dur_at k) (Z.min (now_check it + ms (dur_at k)) (u - ms 2))])
                  ++ pre).
    split; [exact H1|]. split; [exact H2|]. split.
    + rewrite H3. unfold later. cbn [fst snd]. rewrite <- !app_assoc.
      replace (k + 1 + Z.of_nat (length fails))
        with (k + Z.of_nat (length (it :: fails))) by (simpl length; lia).
      reflexivity.
    + rewrite !schedule_app, (schedule_quiet evs Hq), H4. reflexivity.
Qed.

(** C4: the back-off of [ResolveAndConnect], by what each iteration meets.
    Take a run on a channel that is disconnected and not shutting down,
    whose first iterations [fails] each fail and retry, and a next
    iteration [it] that starts before the deadline and whose attempt fails
    too.  Every iteration of [fails] has left its deadline check and then
    its sleep, the [k]-th of them (from 0) of [min(100ms * (k + 1), 1s)]
    and ending at [min(now + sleep_dur, until - 2ms)].  If at line 98 of [it]
    the channel is shutting down or [now + 2ms >= until], the run ends there
    with [status_ = operation_aborted], whatever the script holds further,
    and its last event is that check; otherwise [it] gets its check and its
    sleep as well.  Besides, in any run: a check that holds is the last
    thing the run does and ends it aborted, any other check is followed by
    the sleep that is due, and no sleep comes without its check. *)
Theorem C4_backoff_schedule :
  forall until script s,
    (forall pre shut now post,
       snd (ResolveAndConnect until script s) = pre ++ EvDeadlineCheck shut now :: post ->
       if shut || (until <=? now + ms 2)
       then post = [] /\
            fst (fst (ResolveAndConnect until script s)) = ExitAborted /\
            status_ (snd (fst (ResolveAndConnect until script s))) = operation_aborted
       else exists post',
            post = (EvSleep (Z.min (100 * (sleeps pre + 1)) 1000)
                      (Z.min (now + ms (Z.min (100 * (sleeps pre + 1)) 1000)) (until - ms 2))
                      :: post')) /\
    (forall pre d t post,
       snd (ResolveAndConnect until script s) = pre ++ EvSleep d t :: post ->
       exists pre' shut now, pre = pre' ++ [EvDeadlineCheck shut now]) /\
    (forall fails it rest,
       script = fails ++ it :: rest ->
       shutting_down_ s = false ->
       is_error (status_ s) = true ->
       forallb (retries until) fails = true ->
       now_head it < until ->
       attempt_fails it = true ->
       if shut_attempt it || (until <=? now_check it + ms 2)
       then fst (fst (ResolveAndConnect until script s)) = ExitAborted /\
            status_ (snd (fst (ResolveAndConnect until script s))) = operation_aborted /\
            schedule (snd (ResolveAndConnect until script s))
            = backoff until 0 fails ++ [EvDeadlineCheck (shut_attempt it) (now_check it)] /\
            exists pre,
              snd (ResolveAndConnect until script s)
              = pre ++ [EvDeadlineCheck (shut_attempt it) (now_check it)]
       else exists pre post,
            snd (ResolveAndConnect until script s) = pre ++ post /\
            schedule pre = backoff until 0 (fails ++ [it])).
Proof.
  intros u script s. split; [|split].
  - intros pre shut now post H.
    unfold ResolveAndConnect in *. rewrite <- dur_at_0 in H |- *.
    pose proof (connect_loop_schedule script u 0 s pre shut now post ltac:(lia) H) as L.
    destruct (shut || (u <=? now + ms 2)).
    + destruct L as (Hp & He & Hs). rewrite He. auto.
    + exact L.
  - intros pre d t post H. eapply connect_loop_sleep_after_check. exact H.
  - intros fails it rest -> Hsd Hs Hall Hnow Hf.
    unfold ResolveAndConnect. rewrite <- dur_at_0.
    destruct (connect_loop_retries u fails 0 s (it :: rest) ltac:(lia) Hsd Hs Hall)
      as (s' & pre & Hsd' & Hs' & -> & Hpre).
    rewrite (connect_loop_failed_turn u _ it rest s' Hsd' Hs' Hnow Hf).
    pose proof (attempt_quiet u it s') as Hq.
    destruct (shut_attempt it || (u <=? now_check it + ms 2)); unfold later; cbn [fst snd].
    + split; [reflexivity|]. split; [reflexivity|]. split.
      * rewrite !schedule_app, Hpre, (schedule_quiet _ Hq). reflexivity.
      * exists (pre ++ snd (attempt u it s')). now rewrite app_assoc.
    + exists (pre ++ snd (attempt u it s')
                ++ [EvDeadlineCheck false (now_check it);
                    EvSleep (dur_at (0 + Z.of_nat (length fails)))
                      (Z.min (now_check it + ms (dur_at (0 + Z.of_nat (length fails))))
                         (u - ms 2))]),
        (snd (connect_loop u (next_sleep_dur (dur_at (0 + Z.of_nat (length fails)))) rest
                (observe_shutdown (shut_sleep it) (snd (fst (attempt u it s')))))).
      split; [now rewrite <- !app_assoc|].
      rewrite !schedule_app, Hpre, (schedule_quiet _ Hq), backoff_app. reflexivity.
Qed.

Lemma C4_backoff_schedule_witness :
  fst (fst (ResolveAndConnect (ms 500) demo_script demo_state)) = ExitAborted /\
  status_ (snd (fst (ResolveAndConnect (ms 500) demo_script demo_state)))
  = operation_aborted /\
  schedule (snd (ResolveAndConnect (ms 500) demo_script demo_state))
  = [EvDeadlineCheck false (ms 10); EvSleep 100 (ms 110);
     EvDeadlineCheck false (ms 120); EvSleep 200 (ms 320);
     EvDeadlineCheck false (ms 499)] /\
  exists pre,
    snd (ResolveAndConnect (ms 500) demo_script demo_state)
    = pre ++ [EvDeadlineCheck false (ms 499)].
Proof.
  exact (proj2 (proj2 (C4_backoff_schedule (ms 500) demo_script demo_state))
           [mkIteration 0 true true false (failure 111) false (ms 10) false;
            mkIteration (ms 110) false false false success false (ms 120) false]
           (mkIteration (ms 320) true false true operation_aborted false (ms 499) false)
           [] eq_refl eq_refl eq_refl eq_refl eq_refl eq_refl).
Defined.


Lemma attempt_reconnect_active until it s :
  reconnect_active_ (snd (fst (attempt until it s))) = reconnect_active_ s.
Proof.
  unfold attempt.
  destruct (resolve_ok it); [|reflexivity].
  destruct (cb_first it); simpl;
    repeat match goal with
           | |- context [if ?b then _ else _] => destruct b; simpl
           end; reflexivity.
Qed.

(** [ResolveAndConnect] leaves [reconnect_active_] alone. *)
Lemma connect_loop_reconnect_active script :
  forall until dur s,
    reconnect_active_ (snd (fst (connect_loop until dur script s))) = reconnect_active_ s.
Proof.
  induction script as [|it script IH]; intros u dur s; simpl.
  - now destruct (shutting_down_ s || negb (is_error (status_ s))).
  - destruct (shutting_down_ s || negb (is_error (status_ s))); [reflexivity|].
    destruct (negb (now_head it <? u)); [reflexivity|].
    pose proof (attempt_reconnect_active u it s) as Ha.
    destruct (attempt u it s) as [[connected s1] evs]. simpl in Ha.
    destruct connected; [exact Ha|].
    destruct (shutting_down_ s1 || (u <=? now_check it + ms 2)); [exact Ha|].
    unfold later. simpl. rewrite IH. exact Ha.
Qed.



(** C9: [Connect] called while [shutting_down_] or [reconnect_active_] holds
    dies in its [CHECK] before doing anything; called on a connected channel
    it returns the ok status at once, with nothing posted, no fiber spawned
    and the channel as it was. *)
Theorem C9_connect_guard :
  forall timeout_ms now script s,
    (shutting_down_ s || reconnect_active_ s = true ->
     Connect timeout_ms now script s = Some (CheckFailed, [])) /\
    (shutting_down_ s = false -> reconnect_active_ s = false ->
     status_ s = success ->
     Connect timeout_ms now script s = Some (Returned (success, s), [])).
Proof.
  intros timeout_ms now script s. unfold Connect. split.
  - intros H. rewrite <- negb_orb, negb_involutive, H. reflexivity.
  - intros Hs Hr Hok. rewrite Hs, Hr, Hok. reflexivity.
Qed.

Lemma C9_connect_guard_witness :
  Connect 50 0 demo_script (mkState (failure 107) false true) = Some (CheckFailed, []) /\
  Connect 50 0 demo_script (mkState success false false)
  = Some (Returned (success, mkState success false false), []).
Proof.
  split.
  - apply (proj1 (C9_connect_guard 50 0 demo_script (mkState (failure 107) false true))).
    reflexivity.
  - apply (proj2 (C9_connect_guard 50 0 demo_script (mkState success false false)));
      reflexivity.
Defined.

Lemma single_reconnect_step s l s' :
  single_reconnect s -> step s l s' -> single_reconnect s'.
Proof.
  unfold single_reconnect. intros [Hn Hr] Hstep.
  destruct Hstep as [c n k|c n k c' evs H|c n k ec|c n r k ok c' evs H
                     |c n r k Hs Hm|c n k|c n k c' evs H];
    simpl in *.
  - split; [exact Hn|]. unfold HandleErrorStatus_returns.
    destruct (shutting_down_ c), (reconnect_active_ c); simpl; auto.
  - injection H as <- <-. unfold spawned. simpl. rewrite Hr in Hn. split; [lia|exact I].
  - auto.
  - unfold Shutdown_begin in H.
    destruct (negb (shutting_down_ c)); injection H as <- _; auto.
  - auto.
  - destruct (reconnect_active_ c) eqn:Hra; [|discriminate].
    injection Hn as ->. unfold spawned.
    destruct (ReconnectFiber_rearms c); simpl; rewrite Hra; auto.
  - injection H as <- <-. simpl. rewrite Hr in Hn. split; [lia|exact I].
Qed.

Lemma single_reconnect_reachable s : reachable s -> single_reconnect s.
Proof.
  induction 1 as [s (_ & Hr & Hf & Hi & _)|s l s' _ IH Hstep].
  - unfold single_reconnect. now rewrite Hr, Hf, Hi.
  - eapply single_reconnect_step; eassumption.
Qed.

(** The [DCHECK]s of [ReconnectFiber] hold: a reconnect fiber runs only
    while [reconnect_active_] is set (line 135), and a fiber that ends
    without shutting down has found the channel connected (line 149). *)
Lemma reconnect_fiber_dchecks s :
  reachable s ->
  (forall s', step s LFiberTest s' -> reconnect_active_ (chan s) = true) /\
  (ReconnectFiber_rearms (chan s) = false -> shutting_down_ (chan s) = false ->
   is_error (status_ (chan s)) = false).
Proof.
  intros Hreach. apply single_reconnect_reachable in Hreach as [Hn _]. split.
  - intros s' Hstep. inversion Hstep; subst; simpl in *.
    destruct (reconnect_active_ c); [reflexivity|discriminate].
  - unfold ReconnectFiber_rearms. intros H Hs. rewrite Hs in H. exact H.
Qed.

(** The part of the single-reconnect invariant that holds.
    [HandleErrorStatus] spawns a fiber only if its test of line 156, made
    without the lock, read neither [shutting_down_] nor [reconnect_active_]
    set.  In every state the channel can reach there is at most one
    reconnect fiber, and there is one exactly when [reconnect_active_]
    holds; the locked half of [HandleErrorStatus] starts a fiber only when
    there is none; and [Shutdown] returns only from a state where
    [reconnect_active_] is false and no reconnect fiber is left. *)
Theorem single_reconnect_invariant :
  (forall shut_lock c,
     In EvReconnectAsync (snd (HandleErrorStatus shut_lock c)) ->
     shutting_down_ c = false /\ reconnect_active_ c = false) /\
  (forall s, reachable s ->
     (fibers s <= 1)%nat /\
     (reconnect_active_ (chan s) = true <-> fibers s = 1%nat) /\
     (forall s', step s LHandleErrorLocked s' ->
                 fibers s = 0%nat /\ fibers s' = 1%nat /\
                 reconnect_active_ (chan s') = true) /\
     (forall s', step s LShutdownReturn s' ->
                 reconnect_active_ (chan s) = false /\ fibers s = 0%nat)).
Proof.
  split.
  - intros shut_lock c. unfold HandleErrorStatus, HandleErrorStatus_returns.
    destruct (shutting_down_ c), (reconnect_active_ c); simpl; tauto.
  - intros s Hreach. apply single_reconnect_reachable in Hreach.
    destruct Hreach as [Hn Hr].
    split; [destruct (reconnect_active_ (chan s)); lia|].
    split; [destruct (reconnect_active_ (chan s)); split; (congruence || lia)|].
    split.
    + intros s' Hstep. inversion Hstep as [|c n k c' evs H| | | | |]; subst; simpl in *.
      injection H as <- <-. rewrite Hr in Hn. subst n. unfold spawned. simpl. auto.
    + intros s' Hstep. inversion Hstep as [| | |  |c n r k Hs Hm| |]; subst; simpl in *.
      unfold Shutdown_may_return in Hm. apply negb_true_iff in Hm.
      rewrite Hm in Hn. auto.
Qed.

Lemma demo_system_reachable : reachable demo_system.
Proof.
  apply (reachable_step (mkSystem (mkState (failure 107) false true) (0 + 1) Idle 0)
           LShutdownBegin).
  - apply (reachable_step (mkSystem (mkState (failure 107) false false) 0
                             HandleErrorAtLock 0) LHandleErrorLocked).
    + apply (reachable_step (mkSystem (mkState (failure 107) false false) 0 Idle 0)
               LHandleErrorTest).
      * apply reachable_init. repeat split.
      * apply (step_handle_error_test (mkState (failure 107) false false) 0%nat 0%nat).
    + apply (step_handle_error_locked _ 0%nat 0%nat _ [EvReconnectAsync]). reflexivity.
  - apply (step_shutdown_begin _ _ _ _ true _ [EvSockShutdown; EvSockCancel]). reflexivity.
Defined.

Lemma single_reconnect_invariant_witness :
  (fibers demo_system <= 1)%nat /\
  (reconnect_active_ (chan demo_system) = true <-> fibers demo_system = 1%nat) /\
  (forall s', step demo_system LHandleErrorLocked s' ->
              fibers demo_system = 0%nat /\ fibers s' = 1%nat /\
              reconnect_active_ (chan s') = true) /\
  (forall s', step demo_system LShutdownReturn s' ->
              reconnect_active_ (chan demo_system) = false /\ fibers demo_system = 0%nat).
Proof.
  exact (proj2 single_reconnect_invariant demo_system demo_system_reachable).
Defined.

(** C1: where the code breaks the claim.  [HandleErrorStatus] tests the
    two flags on line 156 before it takes [shd_mu_] on line 161 and does not
    test them again under the lock.  When another thread calls [Shutdown]
    in between, [HandleErrorStatus] sets [reconnect_active_] and calls
    [ReconnectAsync] on a channel whose [shutting_down_] is set; and as
    [Shutdown] found [reconnect_active_] clear it has returned by then: the
    channel reaches a state where [Shutdown] has returned and a reconnect
    fiber is running. *)
Theorem C1_spawn_after_shutdown :
  HandleErrorStatus true (mkState (failure 107) false false)
  = (mkState (failure 107) true true, [EvReconnectAsync]) /\
  exists s, reachable s /\ shutdowns_returned s = 1%nat /\ fibers s = 1%nat /\
            shutting_down_ (chan s) = true /\ reconnect_active_ (chan s) = true.
Proof.
  split; [reflexivity|].
  exists (mkSystem (mkState (failure 107) true true) (0 + 1) Idle 1).
  split; [|repeat split; reflexivity].
  apply (reachable_step (mkSystem (mkState (failure 107) true false) 0
                           HandleErrorAtLock 1) LHandleErrorLocked).
  - apply (reachable_step (mkSystem (mkState (failure 107) true false) 0
                             HandleErrorAtLock 0) LShutdownReturn).
    + apply (reachable_step (mkSystem (mkState (failure 107) false false) 0
                               HandleErrorAtLock 0) LShutdownBegin).
      * apply (reachable_step (mkSystem (mkState (failure 107) false false) 0 Idle 0)
                 LHandleErrorTest).
        -- apply reachable_init. repeat split.
        -- apply (step_handle_error_test (mkState (failure 107) false false) 0%nat 0%nat).
      * apply (step_shutdown_begin _ _ _ _ true _ [EvSockShutdown; EvSockCancel]).
        reflexivity.
    + apply step_shutdown_return; reflexivity.
  - apply (step_handle_error_locked _ 0%nat 1%nat _ [EvReconnectAsync]). reflexivity.
Qed.

End ClientChannelFacts.

(** *** The range reader *)

Section GcsFacts.

Import Gcs.

#[local] Open Scope nat_scope.

Lemma firstn_plus {A : Type} (a b : nat) (l : list A) :
  firstn (a + b) l = firstn a l ++ firstn b (skipn a l).
Proof.
  revert l. induction a as [|a IH]; intros l; [reflexivity|].
  destruct l as [|x l]; simpl.
  - now rewrite firstn_nil.
  - now rewrite IH.
Qed.

Lemma is_nil_length {A : Type} (l : list A) : is_nil l = (length l =? 0).
Proof. now destruct l. Qed.

Lemma length_write_at buf pos data :
  pos + length data <= length buf -> length (write_at buf pos data) = length buf.
Proof.
  intros H. unfold write_at.
  rewrite !length_app, length_firstn, length_skipn. lia.
Qed.

Lemma firstn_write_at_before buf pos data n :
  n <= pos -> pos <= length buf -> firstn n (write_at buf pos data) = firstn n buf.
Proof.
  intros Hn Hp. unfold write_at.
  rewrite firstn_app, length_firstn, firstn_firstn.
  replace (n - Nat.min pos (length buf)) with 0 by lia.
  rewrite Nat.min_l by assumption. simpl. apply app_nil_r.
Qed.

Lemma firstn_write_at_data buf pos data :
  pos <= length buf ->
  firstn (pos + length data) (write_at buf pos data) = firstn pos buf ++ data.
Proof.
  intros Hp. unfold write_at.
  replace pos with (length (firstn pos buf)) at 1
    by (rewrite length_firstn; lia).
  rewrite firstn_app_2.
  replace (length data) with (length data + 0) at 1 by lia.
  rewrite firstn_app_2. simpl. now rewrite app_nil_r.
Qed.

Lemma read_loop_eq object plan f buf read_sofar :
  read_loop object plan f buf read_sofar =
  if read_sofar <? length buf then
    match read_turn f buf read_sofar with
    | TurnReturn o f' buf' => mkResult o f' buf' plan []
    | TurnReopen _ f' buf' read_sofar' =>
      match plan with
      | [] =>
        let '(st, f'', req) := Open object (SendFails 0) f' in
        mkResult (Returned (Error st)) f'' buf' [] [req]
      | resp :: plan' =>
        let '(st, f'', req) := Open object resp f' in
        match st with
        | OK => with_request req (read_loop object plan' f'' buf' read_sofar')
        | _ => mkResult (Returned (Error st)) f'' buf' plan' [req]
        end
      end
    end
  else mkResult (Returned (Value read_sofar)) f buf plan [].
Proof. destruct plan; reflexivity. Qed.

Lemma wrap_small (z : Z) : (0 <= z < 2 ^ 64)%Z -> wrap z = z.
Proof. intros H. unfold wrap. now apply Z.mod_small. Qed.

(** [Open] at a position inside the object gets the rest of the object. *)
Lemma Open_synced object with_length fl f pos :
  (Z.of_nat (length object) < 2 ^ 64)%Z ->
  offs_ f = Z.of_nat pos -> pos <= length object ->
  exists f',
    Open object (SendOk with_length fl) f
    = (OK, f', mkRequest (if pos =? 0 then None else Some (Z.of_nat pos, None))) /\
    synced object pos fl f'.
Proof.
  intros Hsz Hoffs Hpos. unfold Open, SendGeneric, serve. simpl. rewrite Hoffs.
  assert (Hreq : (if (Z.of_nat pos =? 0)%Z then None
                  else Some (SetRange (Z.of_nat pos) kuint64max))
                 = (if pos =? 0 then None else Some (Z.of_nat pos, None))).
  { destruct (Z.eqb_spec (Z.of_nat pos) 0) as [H0|H0], (Nat.eqb_spec pos 0);
      try lia; reflexivity. }
  rewrite Hreq. clear Hreq.
  destruct (pos =? 0) eqn:Hp0.
  - apply Nat.eqb_eq in Hp0. subst pos. simpl in *.
    eexists. split; [reflexivity|]. repeat split; simpl; auto.
  - simpl. rewrite Nat2Z.id.
    eexists. split; [reflexivity|]. repeat split; simpl; auto.
Qed.

Lemma covered_fault_after fl n plan : covered fl plan -> covered (fault_after fl n) plan.
Proof. destruct fl as [[k e]|], plan; simpl; auto. Qed.

Lemma handle_Read_clean c cap :
  strikes (fault c) (Nat.min cap (length (body c))) = false ->
  handle_Read c cap
  = (firstn (Nat.min cap (length (body c))) (body c),
     (if is_nil (skipn (Nat.min cap (length (body c))) (body c))
      then success else need_buffer),
     mkConnection (skipn (Nat.min cap (length (body c))) (body c))
       (fault_after (fault c) (Nat.min cap (length (body c))))).
Proof.
  unfold handle_Read, strikes, fault_after.
  destruct (fault c) as [[k e]|]; [|reflexivity].
  intros ->. reflexivity.
Qed.

Lemma handle_Read_strike c cap k e :
  fault c = Some (k, e) -> k < Nat.min cap (length (body c)) ->
  handle_Read c cap
  = (firstn k (body c), e, mkConnection (skipn k (body c)) (Some (0, e))).
Proof.
  intros Hf Hk. unfold handle_Read. rewrite Hf.
  apply Nat.ltb_lt in Hk. now rewrite Hk.
Qed.

(** A turn the fault does not reach: [Read] returns what the turn read. *)
Lemma read_turn_clean object pos fl f buf read_sofar :
  (Z.of_nat (length object) < 2 ^ 64)%Z ->
  synced object pos fl f ->
  read_sofar < length buf ->
  strikes fl (Nat.min (length buf - read_sofar) (length object - pos)) = false ->
  let n := Nat.min (length buf - read_sofar) (length object - pos) in
  exists f',
    read_turn f buf read_sofar
    = TurnReturn (Returned (Value (n + read_sofar))) f'
        (write_at buf read_sofar (firstn n (skipn pos object))) /\
    synced object (pos + n) (fault_after fl n) f'.
Proof.
  intros Hsz (Hoffs & Hh & Hd & Hpos) Hrs Hstrike n.
  unfold read_turn. rewrite Hh.
  rewrite handle_Read_clean; simpl body; simpl fault;
    rewrite ?length_skipn; fold n; [|assumption].
  assert (Hlen : length (firstn n (skipn pos object)) = n)
    by (rewrite length_firstn, length_skipn; lia).
  rewrite Hlen.
  replace (length buf - read_sofar - (length buf - read_sofar - n)) with n by lia.
  rewrite skipn_skipn, (Nat.add_comm n pos).
  assert (Hchk : (length buf - read_sofar - n =? 0)
                 || negb (is_error (if is_nil (skipn (pos + n) object)
                                    then success else need_buffer)) = true).
  { destruct (Nat.eqb_spec (length buf - read_sofar - n) 0) as [|Hne]; [reflexivity|].
    rewrite is_nil_length, length_skipn.
    replace (length object - (pos + n) =? 0) with true
      by (symmetry; apply Nat.eqb_eq; lia).
    reflexivity. }
  assert (Hw : wrap (Z.of_nat pos + Z.of_nat n) = Z.of_nat (pos + n))
    by (rewrite wrap_small; lia).
  destruct (is_nil (skipn (pos + n) object)) eqn:Hnil; cbv iota beta; rewrite Hchk;
    (eexists; split; [reflexivity|]);
    unfold synced; simpl; rewrite Hoffs, Hw, Hnil; repeat split; lia.
Qed.

(** A turn the fault cuts short after [k] bytes. *)
Lemma read_turn_strike object pos k e f buf read_sofar :
  (Z.of_nat (length object) < 2 ^ 64)%Z ->
  synced object pos (Some (k, e)) f ->
  resumable e = true ->
  k < Nat.min (length buf - read_sofar) (length object - pos) ->
  exists f',
    read_turn f buf read_sofar
    = TurnReopen k f' (write_at buf read_sofar (firstn k (skipn pos object)))
        (match e with partial_message => read_sofar + k | _ => read_sofar end) /\
    offs_ f' = Z.of_nat (match e with partial_message => pos + k | _ => pos end) /\
    https_handle_ f' = None.
Proof.
  intros Hsz (Hoffs & Hh & Hd & Hpos) He Hk.
  unfold read_turn. rewrite Hh.
  rewrite (handle_Read_strike _ _ k e); simpl body; simpl fault;
    rewrite ?length_skipn; [|reflexivity|assumption].
  assert (Hlen : length (firstn k (skipn pos object)) = k)
    by (rewrite length_firstn, length_skipn; lia).
  rewrite Hlen.
  replace (length buf - read_sofar - (length buf - read_sofar - k)) with k by lia.
  destruct e; try discriminate; cbv iota beta;
    (eexists; split; [reflexivity|]); simpl; split; try reflexivity.
  - rewrite Hoffs. rewrite wrap_small; lia.
  - exact Hoffs.
Qed.

Lemma firstn_filled object pos0 buf read_sofar k :
  read_sofar <= length buf ->
  pos0 + read_sofar + k <= length object ->
  firstn read_sofar buf = firstn read_sofar (skipn pos0 object) ->
  firstn (read_sofar + k)
    (write_at buf read_sofar (firstn k (skipn (pos0 + read_sofar) object)))
  = firstn (read_sofar + k) (skipn pos0 object).
Proof.
  intros Hrs Hk Hpre.
  replace k with (length (firstn k (skipn (pos0 + read_sofar) object))) at 1
    by (rewrite length_firstn, length_skipn; lia).
  rewrite firstn_write_at_data by assumption.
  rewrite firstn_plus, skipn_skipn, (Nat.add_comm read_sofar pos0), Hpre.
  reflexivity.
Qed.

(** The loop of [Read], entered in step with the server and short of both
    ends, returns a longer correct prefix of the buffer, in step again. *)
Lemma read_loop_synced object plan :
  forall f buf read_sofar pos0 fl,
    (Z.of_nat (length object) < 2 ^ 64)%Z ->
    synced object (pos0 + read_sofar) fl f ->
    covered fl plan ->
    read_sofar < length buf ->
    pos0 + read_sofar < length object ->
    firstn read_sofar buf = firstn read_sofar (skipn pos0 object) ->
    exists n f' buf' plan' fl' reqs,
      read_loop object plan f buf read_sofar
      = mkResult (Returned (Value n)) f' buf' plan' reqs /\
      read_sofar < n <= length buf /\
      length buf' = length buf /\
      firstn n buf' = firstn n (skipn pos0 object) /\
      synced object (pos0 + n) fl' f' /\
      covered fl' plan'.
Proof.
  induction plan as [|resp plan' IH];
    intros f buf rs pos0 fl Hsz Hsync Hcov Hrs Hpos Hpre;
    rewrite read_loop_eq;
    (replace (rs <? length buf) with true by (symmetry; apply Nat.ltb_lt; exact Hrs));
    set (n := Nat.min (length buf - rs) (length object - (pos0 + rs)));
    destruct (strikes fl n) eqn:Hs.
  1, 3: destruct fl as [[k e]|]; [|discriminate]; simpl in Hs, Hcov;
    apply Nat.ltb_lt in Hs; destruct Hcov as [He Hcov].
  - contradiction.
  - destruct resp as [code|with_length fl']; [contradiction|].
    destruct (read_turn_strike object (pos0 + rs) k e f buf rs Hsz Hsync He Hs)
      as (f1 & Hturn & Hoffs1 & Hh1).
    rewrite Hturn.
    set (rs1 := match e with partial_message => rs + k | _ => rs end) in *.
    assert (Hpos1 : match e with partial_message => pos0 + rs + k | _ => pos0 + rs end
                     = pos0 + rs1) by (unfold rs1; destruct e; lia).
    rewrite Hpos1 in Hoffs1.
    assert (Hrs1 : rs <= rs1 <= rs + k) by (unfold rs1; destruct e; lia).
    destruct (Open_synced object with_length fl' f1 (pos0 + rs1) Hsz Hoffs1 ltac:(lia))
      as (f2 & Hopen & Hsync2).
    rewrite Hopen.
    set (buf1 := write_at buf rs (firstn k (skipn (pos0 + rs) object))).
    assert (Hlen1 : length buf1 = length buf).
    { unfold buf1. apply length_write_at.
      rewrite length_firstn, length_skipn. lia. }
    assert (Hpre1 : firstn rs1 buf1 = firstn rs1 (skipn pos0 object)).
    { unfold rs1, buf1. destruct e; try discriminate.
      - apply firstn_filled; [lia|lia|assumption].
      - rewrite firstn_write_at_before by lia. assumption. }
    destruct (IH f2 buf1 rs1 pos0 fl' Hsz Hsync2 Hcov ltac:(lia) ltac:(lia) Hpre1)
      as (m & f' & buf' & plan'' & fl'' & reqs & Hloop & Hm & Hlen & Hfirst & Hs' & Hc').
    rewrite Hloop. unfold with_request. simpl.
    exists m, f', buf', plan'', fl''. eexists.
    split; [reflexivity|]. split; [lia|]. split; [lia|]. auto.
  - destruct (read_turn_clean object (pos0 + rs) fl f buf rs Hsz Hsync Hrs Hs)
      as (f' & Hturn & Hsync').
    fold n in Hturn, Hsync'. rewrite Hturn.
    exists (n + rs), f'. do 2 eexists. exists (fault_after fl n). eexists.
    split; [reflexivity|].
    split; [lia|]. split.
    { apply length_write_at. rewrite length_firstn, length_skipn. lia. }
    split.
    { rewrite (Nat.add_comm n rs). apply firstn_filled; [lia|lia|assumption]. }
    split.
    { replace (pos0 + (n + rs)) with (pos0 + rs + n) by lia. exact Hsync'. }
    apply covered_fault_after. exact Hcov.
  - destruct (read_turn_clean object (pos0 + rs) fl f buf rs Hsz Hsync Hrs Hs)
      as (f' & Hturn & Hsync').
    fold n in Hturn, Hsync'. rewrite Hturn.
    exists (n + rs), f'. do 2 eexists. exists (fault_after fl n). eexists.
    split; [reflexivity|].
    split; [lia|]. split.
    { apply length_write_at. rewrite length_firstn, length_skipn. lia. }
    split.
    { rewrite (Nat.add_comm n rs). apply firstn_filled; [lia|lia|assumption]. }
    split.
    { replace (pos0 + (n + rs)) with (pos0 + rs + n) by lia. exact Hsync'. }
    apply covered_fault_after. exact Hcov.
Qed.

(** One [Read] at the current offset, in step with the server. *)
Lemma Read_synced object plan f buf pos fl :
  (Z.of_nat (length object) < 2 ^ 64)%Z ->
  synced object pos fl f ->
  covered fl plan ->
  buf <> [] ->
  if pos =? length object
  then Read object plan f (Z.of_nat pos) buf
       = mkResult (Returned (Value 0)) f buf plan []
  else exists n f' buf' plan' fl' reqs,
       Read object plan f (Z.of_nat pos) buf
       = mkResult (Returned (Value n)) f' buf' plan' reqs /\
       0 < n <= length buf /\
       firstn n buf' = firstn n (skipn pos object) /\
       synced object (pos + n) fl' f' /\
       covered fl' plan'.
Proof.
  intros Hsz Hsync Hcov Hbuf.
  pose proof Hsync as (Hoffs & Hh & Hd & Hpos).
  unfold Read.
  destruct buf as [|b buf]; [contradiction|]. cbv [is_nil].
  rewrite Hoffs, Z.eqb_refl. cbv [negb]. rewrite Hd, is_nil_length, length_skipn.
  destruct (Nat.eqb_spec pos (length object)) as [->|Hne].
  - now rewrite Nat.sub_diag.
  - replace (length object - pos =? 0) with false by (symmetry; apply Nat.eqb_neq; lia).
    destruct (read_loop_synced object plan f (b :: buf) 0 pos fl Hsz)
      as (n & f' & buf' & plan' & fl' & reqs & Hloop & Hn & Hlen & Hfirst & Hs' & Hc');
      rewrite ?Nat.add_0_r; try assumption; try reflexivity; try (simpl; lia).
    exists n, f', buf', plan', fl', reqs. auto.
Qed.



Lemma handle_Read_length c cap :
  length (fst (fst (handle_Read c cap))) <= cap.
Proof.
  unfold handle_Read.
  destruct (fault c) as [[k e]|]; [destruct (Nat.ltb_spec k (Nat.min cap (length (body c))))|];
    simpl; rewrite length_firstn; lia.
Qed.

(** C2, as the code has it: a [Read] into a non-empty buffer at an offset
    other than the reader's returns INVALID_ARGUMENT and leaves the reader,
    the buffer and the connection as they were; nothing is sent. *)
Theorem C2_nonsequential_read :
  forall object plan f offset buf,
    buf <> [] -> offset <> offs_ f ->
    Read object plan f offset buf
    = mkResult (Returned (Error INVALID_ARGUMENT)) f buf plan [].
Proof.
  intros object plan f offset buf Hbuf Hoff. unfold Read.
  destruct buf; [contradiction|]. cbv [is_nil].
  now rewrite (proj2 (Z.eqb_neq offset (offs_ f)) Hoff).
Qed.

Lemma C2_nonsequential_read_witness :
  Read demo_object [] demo_reader 0 [Byte.x00; Byte.x00]
  = mkResult (Returned (Error INVALID_ARGUMENT)) demo_reader [Byte.x00; Byte.x00] [] [].
Proof.
  apply (C2_nonsequential_read demo_object [] demo_reader 0%Z [Byte.x00; Byte.x00]).
  - discriminate.
  - simpl. lia.
Defined.

(** C2 as stated fails on an empty buffer: the [CHECK] of line 98 comes
    before the test of the offset. *)
Lemma C2_counterexample :
  ~ (forall object plan f offset buf,
        offset <> offs_ f ->
        res (Read object plan f offset buf) = Returned (Error INVALID_ARGUMENT)).
Proof.
  intros H. specialize (H demo_object [] demo_reader 0%Z []).
  simpl in H. discriminate H. lia.
Qed.







(** The same at offset 0: the reopening carries no Range header, and the
    two bytes that had arrived are fetched again. *)
Example reopen_at_offset_0 :
  let r := Read demo_object [SendOk true None]
             (mkFile 0 5 (Some (mkConnection demo_object (Some (2, stream_truncated))))
                false)
             0 (repeat Byte.x00 4) in
  res r = Returned (Value 4) /\
  sent r = [mkRequest None] /\
  buffer r = firstn 4 demo_object /\
  offs_ (file r) = 4%Z.
Proof. vm_compute. repeat split. Qed.

(** And in the middle of the object: the Range header names the offset. *)
Example reopen_at_offset_2 :
  let r := Read demo_object [SendOk true None]
             (mkFile 2 5 (Some (mkConnection (skipn 2 demo_object)
                                  (Some (1, partial_message)))) false)
             2 (repeat Byte.x00 4) in
  res r = Returned (Value 3) /\
  sent r = [mkRequest (Some (3%Z, None))] /\
  firstn 3 (buffer r) = skipn 2 demo_object /\
  offs_ (file r) = 5%Z.
Proof. vm_compute. repeat split. Qed.

End GcsFacts.

(** *** The accept server *)

Section AcceptServerFacts.

Import AcceptServer AcceptTrace.

#[local] Open Scope nat_scope.

Lemma in_unlink h h' clist : In h (unlink h' clist) <-> In h clist /\ h <> h'.
Proof.
  unfold unlink. rewrite filter_In, negb_true_iff, Nat.eqb_neq. tauto.
Qed.

(** The wait of line 85 returns only on an empty list. *)
Lemma wait_empty_true script :
  forall clist clist',
    wait_empty script clist = (true, clist') -> clist' = [].
Proof.
  induction script as [|x script IH]; intros clist clist'; simpl.
  - destruct clist; simpl; intros H; now inversion H.
  - destruct clist as [|h clist]; simpl; [intros H; now inversion H|].
    destruct x; apply IH.
Qed.

(** It returns exactly when every handler still linked returns. *)
Lemma wait_empty_iff script :
  forall clist,
    fst (wait_empty script clist) = true <->
    (forall h, In h clist -> returned script h).
Proof.
  unfold returned.
  induction script as [|x script IH]; intros clist; simpl.
  - destruct clist as [|h clist]; simpl; split; try tauto; try discriminate.
    intros H. destruct (H h). now left.
  - destruct clist as [|h0 clist]; [simpl; split; [contradiction|reflexivity]|].
    cbv [is_nil].
    assert (Hskip : forall h, (x <> HandlerReturned h) ->
                              (x = HandlerReturned h \/ In (HandlerReturned h) script
                               <-> In (HandlerReturned h) script))
      by (intros; tauto).
    destruct x as [| | |h'];
      try (rewrite IH; split; intros H h Hin; specialize (H h Hin);
           (apply Hskip in H || apply Hskip); (discriminate || assumption)).
    rewrite IH. split; intros H h Hin.
    + destruct (Nat.eq_dec h h') as [->|Hne]; [now left|].
      right. apply H. apply in_unlink. auto.
    + apply in_unlink in Hin as [Hin Hne].
      destruct (H h Hin) as [Heq|Hr]; [congruence|assumption].
Qed.

Lemma accept_loop_pending script :
  forall next clist x,
    In x (pending (snd (accept_loop script next clist))) -> In x script.
Proof.
  induction script as [|y script IH]; intros next clist x; simpl; [tauto|].
  destruct y; simpl; eauto.
Qed.

Lemma accept_loop_made script :
  forall next clist, next <= made (snd (accept_loop script next clist)).
Proof.
  induction script as [|y script IH]; intros next clist; simpl; [lia|].
  destruct y; simpl; try lia; [|apply IH].
  specialize (IH (S next) (clist ++ [next])). lia.
Qed.

(** Who is linked when the loop stops: a handler that was linked at the
    start or one made since. *)
Lemma accept_loop_live script :
  forall next clist h,
    In h (live (snd (accept_loop script next clist))) ->
    In h clist \/ next <= h < made (snd (accept_loop script next clist)).
Proof.
  induction script as [|y script IH]; intros next clist h; simpl; [now left|].
  destruct y as [| | |h']; simpl; try (now left).
  - intros H. pose proof (accept_loop_made script (S next) (clist ++ [next])) as Hm.
    apply IH in H as [Hin|Hge]; [|right; lia].
    apply in_app_or in Hin as [Hin|[<-|[]]]; [now left|right; lia].
  - intros H. apply IH in H as [Hin|Hge]; [|now right].
    apply in_unlink in Hin as [Hin _]. now left.
Qed.

(** A linked handler stays linked until it returns. *)
Lemma accept_loop_keeps script :
  forall next clist h,
    In h clist ->
    In h (live (snd (accept_loop script next clist))) \/ returned script h.
Proof.
  unfold returned.
  induction script as [|y script IH]; intros next clist h Hin; simpl; [now left|].
  destruct y as [| | |h']; simpl; try (now left).
  - destruct (IH (S next) (clist ++ [next]) h) as [H|H]; auto.
    apply in_or_app. now left.
  - destruct (Nat.eq_dec h h') as [->|Hne]; [right; now left|].
    destruct (IH next (unlink h' clist) h) as [H|H]; auto.
    apply in_unlink. auto.
Qed.

(** Every handler made by the loop is linked at its end or has returned. *)
Lemma accept_loop_accounted script :
  forall next clist h,
    next <= h < made (snd (accept_loop script next clist)) ->
    In h (live (snd (accept_loop script next clist))) \/ returned script h.
Proof.
  unfold returned.
  induction script as [|y script IH]; intros next clist h; simpl; [lia|].
  destruct y as [| | |h']; simpl; try lia.
  - intros Hh. destruct (Nat.eq_dec h next) as [->|Hne].
    + destruct (accept_loop_keeps script (S next) (clist ++ [next]) next) as [H|H]; auto.
      apply in_or_app. right. now left.
    + destruct (IH (S next) (clist ++ [next]) h) as [H|H]; auto. lia.
  - intros Hh. destruct (IH next (unlink h' clist) h Hh) as [H|H]; auto.
Qed.

(** A handler linked at the end of the loop has not returned before. *)
Lemma accept_loop_not_yet script :
  forall next clist h,
    well_formed script next = true ->
    In h (live (snd (accept_loop script next clist))) ->
    returned script h ->
    returned (pending (snd (accept_loop script next clist))) h.
Proof.
  unfold returned.
  induction script as [|y script IH]; intros next clist h Hwf Hlive Hret; simpl in *;
    [contradiction|].
  destruct y as [| | |h']; simpl in *.
  - destruct Hret as [Heq|Hret]; [discriminate|]. eapply IH; eassumption.
  - destruct Hret as [Heq|Hret]; [discriminate|assumption].
  - destruct Hret as [Heq|Hret]; [discriminate|assumption].
  - apply andb_true_iff in Hwf as [Hlt Hwf]. apply Nat.ltb_lt in Hlt.
    destruct Hret as [Heq|Hret]; [|eapply IH; eassumption].
    injection Heq as ->.
    apply accept_loop_live in Hlive as [Hin|Hge]; [|lia].
    apply in_unlink in Hin as [_ Hne]. congruence.
Qed.

Lemma accept_loop_events script :
  forall next clist, forallb accept_event (fst (accept_loop script next clist)) = true.
Proof.
  induction script as [|y script IH]; intros next clist; simpl; [reflexivity|].
  destruct y; simpl; auto.
Qed.

(** The loop ends on the first accept that fails or throws, and only then. *)
Lemma accept_loop_exited script :
  forall next clist,
    exited (snd (accept_loop script next clist)) = true <->
    In AcceptFailed script \/ In Thrown script.
Proof.
  induction script as [|y script IH]; intros next clist; simpl.
  - split; [discriminate|tauto].
  - destruct y; simpl; rewrite ?IH; intuition congruence.
Qed.

Lemma filter_unlink (P : handler -> bool) (h' : handler) (clist : list handler) :
  filter P (unlink h' clist) = filter (fun h => negb (h' =? h) && P h) clist.
Proof.
  unfold unlink. induction clist as [|x clist IH]; simpl; [reflexivity|].
  rewrite (Nat.eqb_sym h' x).
  destruct (x =? h'); simpl; [exact IH|].
  destruct (P x); simpl; now rewrite IH.
Qed.

(** The accept loop, up to the input that ends it. *)
Lemma accept_loop_until_exit pre :
  forall x post next clist,
    well_formed pre next = true ->
    forallb (fun y => negb (is_exit y)) pre = true ->
    is_exit x = true ->
    accept_loop (pre ++ x :: post) next clist
    = (flat_map link_run (seq next (accepts pre)) ++ caught x,
       mkLoopEnd true (next + accepts pre)
         (filter (fun h => negb (returned_in pre h)) (clist ++ seq next (accepts pre)))
         post).
Proof.
  induction pre as [|y pre IH]; intros x post next clist Hwf Hpre Hx.
  - simpl. rewrite Nat.add_0_r, app_nil_r.
    assert (Hall : filter (fun _ : handler => true) clist = clist)
      by (clear; induction clist as [|c clist IH]; simpl; [|f_equal]; auto).
    rewrite Hall. destruct x; try discriminate; reflexivity.
  - simpl in Hpre. apply andb_true_iff in Hpre as [Hy Hpre].
    destruct y as [| | |h']; try discriminate; simpl in Hwf |- *.
    + rewrite (IH x post (S next) (clist ++ [next]) Hwf Hpre Hx).
      unfold later, accepts. simpl. rewrite <- app_assoc. simpl.
      rewrite Nat.add_succ_r. reflexivity.
    + apply andb_true_iff in Hwf as [Hlt Hwf]. apply Nat.ltb_lt in Hlt.
      rewrite (IH x post next (unlink h' clist) Hwf Hpre Hx).
      unfold accepts. simpl. do 2 f_equal.
      rewrite !filter_app, filter_unlink. f_equal.
      * apply filter_ext. intros h. now rewrite negb_orb.
      * apply filter_ext_in. intros h Hin. apply in_seq in Hin.
        replace (h' =? h) with false by (symmetry; apply Nat.eqb_neq; lia).
        reflexivity.
Qed.

Lemma returned_in_spec pre h : returned_in pre h = true <-> returned pre h.
Proof.
  unfold returned_in, returned. rewrite existsb_exists. split.
  - intros ([| | |h'] & Hin & Hx); try discriminate.
    apply Nat.eqb_eq in Hx. now subst h'.
  - intros Hin. exists (HandlerReturned h). split; [exact Hin|apply Nat.eqb_refl].
Qed.

Lemma well_formed_app pre :
  forall rest next, well_formed (pre ++ rest) next = true -> well_formed pre next = true.
Proof.
  induction pre as [|y pre IH]; intros rest next; simpl; [reflexivity|].
  destruct y as [| | |h]; eauto.
  intros H. apply andb_true_iff in H as [Hlt H]. rewrite Hlt. simpl. eauto.
Qed.

(** What [RunInIOThread] reports of its own run. *)
Lemma drain_as_reported :
  forall script s,
    done_ s = false ->
    well_formed script 0 = true ->
    (left_loop (RunInIOThread script (fst (Run s))) = true <->
     In AcceptFailed script \/ In Thrown script) /\
    (done_ (after (RunInIOThread script (fst (Run s)))) = true ->
     left_loop (RunInIOThread script (fst (Run s))) = true /\
     clist_ (RunInIOThread script (fst (Run s))) = []) /\
    (left_loop (RunInIOThread script (fst (Run s))) = true ->
     (exists pre,
        forallb accept_event pre = true /\
        trace (RunInIOThread script (fst (Run s)))
        = pre ++ map EvClose (clist_at_exit (RunInIOThread script (fst (Run s))))
              ++ (if done_ (after (RunInIOThread script (fst (Run s))))
                  then [EvNotifyDone] else [])) /\
     (Wait_returns (after (RunInIOThread script (fst (Run s)))) = true <->
      forall h, h < accepted (RunInIOThread script (fst (Run s))) -> returned script h)).
Proof.
  intros script s Hdone Hwf. unfold RunInIOThread, Run. simpl fst.
  pose proof (accept_loop_events script 0 []) as Hevs.
  pose proof (accept_loop_pending script 0 []) as Hpend.
  pose proof (accept_loop_live script 0 []) as Hlive.
  pose proof (accept_loop_accounted script 0 []) as Hacc.
  pose proof (accept_loop_not_yet script 0 []) as Hnot.
  pose proof (accept_loop_exited script 0 []) as Hexited.
  destruct (accept_loop script 0 []) as [evs e]. simpl in *.
  destruct (exited e) eqn:Hexit.
  - pose proof (wait_empty_true (pending e) (live e)) as Hempty.
    pose proof (wait_empty_iff (pending e) (live e)) as Hiff.
    destruct (wait_empty (pending e) (live e)) as [emptied clist]. simpl in *.
    destruct emptied; simpl.
    + split; [exact Hexited|].
      split; [intros _; split; [reflexivity|eapply Hempty; reflexivity]|].
      intros _. split; [exists evs; auto|].
      split; [intros _|reflexivity].
      intros h Hh. destruct (Hacc h ltac:(lia)) as [Hin|Hret]; [|assumption].
      apply (proj1 Hiff eq_refl) in Hin. unfold returned in *. auto.
    + rewrite Hdone. split; [exact Hexited|]. split; [discriminate|].
      intros _. split; [exists evs; rewrite app_nil_r; auto|].
      split; [discriminate|].
      intros Hall. apply Hiff. intros h Hin.
      apply Hnot; try assumption.
      apply Hall. destruct (Hlive h Hin) as [[]|Hlt]. lia.
  - simpl. rewrite Hdone. split; [exact Hexited|]. split; discriminate.
Qed.

(** C5: the accept loop ends when an accept fails or an exception is
    caught, and only then.  Take a run whose loop ends at input [x], after
    the inputs [pre] and before the inputs [post].  Exactly the handlers
    accepted in [pre] were linked and run, in order; then [RunInIOThread]
    closes the socket of each of them that has not returned in [pre], and
    of no other; then it waits for the list to empty, and notifies the Done
    after that and only then.  So the Done is notified, and [Wait] returns,
    exactly when every handler accepted has returned, in [pre] or in
    [post]; when the loop has not ended the Done is not notified. *)
Theorem C5_accept_server_drain :
  forall script s,
    done_ s = false ->
    well_formed script 0 = true ->
    (left_loop (RunInIOThread script (fst (Run s))) = true <->
     In AcceptFailed script \/ In Thrown script) /\
    (done_ (after (RunInIOThread script (fst (Run s)))) = true ->
     left_loop (RunInIOThread script (fst (Run s))) = true /\
     clist_ (RunInIOThread script (fst (Run s))) = []) /\
    (left_loop (RunInIOThread script (fst (Run s))) = true ->
     (exists pre,
        forallb accept_event pre = true /\
        trace (RunInIOThread script (fst (Run s)))
        = pre ++ map EvClose (clist_at_exit (RunInIOThread script (fst (Run s))))
              ++ (if done_ (after (RunInIOThread script (fst (Run s))))
                  then [EvNotifyDone] else [])) /\
     (Wait_returns (after (RunInIOThread script (fst (Run s)))) = true <->
      forall h, h < accepted (RunInIOThread script (fst (Run s))) -> returned script h)) /\
    (forall pre x post,
       script = pre ++ x :: post ->
       forallb (fun y => negb (is_exit y)) pre = true ->
       is_exit x = true ->
       accepted (RunInIOThread script (fst (Run s))) = accepts pre /\
       clist_at_exit (RunInIOThread script (fst (Run s)))
       = filter (fun h => negb (returned_in pre h)) (seq 0 (accepts pre)) /\
       trace (RunInIOThread script (fst (Run s)))
       = flat_map link_run (seq 0 (accepts pre)) ++ caught x
           ++ map EvClose (filter (fun h => negb (returned_in pre h)) (seq 0 (accepts pre)))
           ++ (if done_ (after (RunInIOThread script (fst (Run s))))
               then [EvNotifyDone] else []) /\
       (done_ (after (RunInIOThread script (fst (Run s)))) = true <->
        forall h, h < accepts pre -> returned (pre ++ post) h) /\
       (Wait_returns (after (RunInIOThread script (fst (Run s)))) = true <->
        forall h, h < accepts pre -> returned (pre ++ post) h)).
Proof.
  intros script s Hdone Hwf.
  destruct (drain_as_reported script s Hdone Hwf) as (H1 & H2 & H3).
  split; [exact H1|]. split; [exact H2|]. split; [exact H3|].
  intros pre x post -> Hpre Hx.
  pose proof (well_formed_app pre (x :: post) 0 Hwf) as Hwfpre.
  unfold RunInIOThread, Run. cbn [fst].
  rewrite (accept_loop_until_exit pre x post 0 [] Hwfpre Hpre Hx).
  cbn [exited made live pending app Nat.add].
  set (lv := filter (fun h => negb (returned_in pre h)) (seq 0 (accepts pre))).
  assert (Hiff : fst (wait_empty post lv) = true <->
                 forall h, h < accepts pre -> returned (pre ++ post) h).
  { rewrite wait_empty_iff. unfold lv, returned. split.
    - intros Hl h Hh. apply in_or_app.
      destruct (returned_in pre h) eqn:Hr.
      + left. now apply returned_in_spec.
      + right. apply Hl. apply filter_In. rewrite Hr. split; [|reflexivity].
        apply in_seq. lia.
    - intros Hall h Hin. apply filter_In in Hin as [Hin Hr].
      apply in_seq in Hin. apply negb_true_iff in Hr.
      destruct (in_app_or _ _ _ (Hall h ltac:(lia))) as [H|H]; [|exact H].
      apply returned_in_spec in H. congruence. }
  destruct (wait_empty post lv) as [emptied clist]. cbn [fst] in Hiff.
  destruct emptied; cbn [accepted clist_at_exit trace after done_ was_run_ Wait_returns].
  - split; [reflexivity|]. split; [reflexivity|].
    split; [now rewrite <- !app_assoc|]. split; exact Hiff.
  - rewrite Hdone. split; [reflexivity|]. split; [reflexivity|].
    split; [now rewrite <- !app_assoc, app_nil_r|]. split; exact Hiff.
Qed.

Lemma C5_accept_server_drain_witness :
  accepted (RunInIOThread demo_inputs (fst (Run constructed))) = 2 /\
  clist_at_exit (RunInIOThread demo_inputs (fst (Run constructed))) = [1] /\
  trace (RunInIOThread demo_inputs (fst (Run constructed)))
  = [EvLink 0; EvRun 0; EvLink 1; EvRun 1; EvClose 1; EvNotifyDone] /\
  (done_ (after (RunInIOThread demo_inputs (fst (Run constructed)))) = true <->
   forall h, h < 2 ->
             returned ([Accepted; Accepted; HandlerReturned 0] ++ [HandlerReturned 1]) h) /\
  (Wait_returns (after (RunInIOThread demo_inputs (fst (Run constructed)))) = true <->
   forall h, h < 2 ->
             returned ([Accepted; Accepted; HandlerReturned 0] ++ [HandlerReturned 1]) h).
Proof.
  exact (proj2 (proj2 (proj2 (C5_accept_server_drain demo_inputs constructed
                                eq_refl eq_refl)))
           [Accepted; Accepted; HandlerReturned 0] AcceptFailed [HandlerReturned 1]
           eq_refl eq_refl eq_refl).
Defined.

(** C10: [Wait] on a server that was not run does not wait on the Done and
    returns; so does the destructor of a server that was constructed and
    never run; [Run] is what sets the flag. *)
Theorem C10_wait_without_run :
  (forall s, was_run_ s = false ->
             Wait s = [] /\ Wait_returns s = true /\ ~ In EvWaitDone (destroy s)) /\
  was_run_ constructed = false /\
  (forall s, was_run_ (fst (Run s)) = true /\ Wait (fst (Run s)) = [EvWaitDone]).
Proof.
  split; [|split; [reflexivity|intros s; split; reflexivity]].
  intros s Hs. unfold destroy, Wait, Wait_returns. rewrite Hs.
  repeat split. intros [H|[]]. discriminate.
Qed.

Lemma C10_wait_without_run_witness :
  Wait constructed = [] /\ Wait_returns constructed = true /\
  ~ In EvWaitDone (destroy constructed).
Proof.
  exact (proj1 C10_wait_without_run constructed eq_refl).
Defined.

End AcceptServerFacts.

(** *** The fiber-queue thread pool *)

Section FiberQueueThreadPoolFacts.

Import FiberQueueThreadPool.

#[local] Open Scope nat_scope.

Lemma skipn_cons_inv {A : Type} (k : nat) (l : list A) (x : A) (q : list A) :
  skipn k l = x :: q ->
  nth_error l k = Some x /\ skipn (S k) l = q /\ firstn (S k) l = firstn k l ++ [x].
Proof.
  revert l. induction k as [|k IH]; intros l H.
  - destruct l; [discriminate|]. injection H as -> ->. auto.
  - destruct l as [|y l]; [discriminate|]. simpl in H.
    destruct (IH l H) as (Hn & Hs & Hf). repeat split; auto.
    change (firstn (S (S k)) (y :: l)) with (y :: firstn (S k) l).
    rewrite Hf. reflexivity.
Qed.

Lemma length_set_nth {A : Type} (i : nat) (x : A) (l : list A) :
  length (set_nth i x l) = length l.
Proof.
  revert i. induction l as [|y l IH]; intros [|i]; simpl; auto.
Qed.

Lemma nth_error_set_nth {A : Type} (i j : nat) (x : A) (l : list A) :
  nth_error (set_nth i x l) j
  = if (i =? j) && (i <? length l) then Some x else nth_error l j.
Proof.
  revert i j. induction l as [|y l IH]; intros [|i] [|j]; simpl;
    rewrite ?andb_false_r; auto.
Qed.

Lemma drained_refl p :
  closed (input_ p) = true -> aborted p = false -> drained p p.
Proof.
  intros Hc Ha. unfold drained. rewrite Ha.
  repeat split; auto; try congruence.
  exists 0. simpl. rewrite app_nil_r. auto.
Qed.

(** A turn of any worker keeps the account. *)
Lemma drained_turn p0 p i :
  drained p0 p -> drained p0 (WorkerFunction_turn i p).
Proof.
  intros Hd. pose proof Hd as (Hc & Hlen & Hex & Hst & k & Hitems & Hran).
  unfold WorkerFunction_turn.
  destruct (aborted p) eqn:Ha; [exact Hd|].
  destruct (nth_error (workers_ p) i) as [[|]|] eqn:Hi; try exact Hd.
  unfold pop. destruct (items (input_ p)) as [|f q] eqn:Hq.
  - rewrite Hc. unfold drained. simpl.
    rewrite length_set_nth, Hq.
    repeat split; auto.
    + intros j Hj. rewrite nth_error_set_nth.
      destruct ((i =? j) && (i <? length (workers_ p))); [reflexivity|]. now apply Hst.
    + exists k. auto.
  - destruct (skipn_cons_inv k _ f q (eq_sym Hitems)) as (Hn & Hs & Hf).
    destruct Hran as [Hh Hran].
    assert (Hnone : forall j, nth_error (workers_ p0) j = Some Running ->
                              nth_error (workers_ p) j = Some Exited -> False).
    { intros j H1 H2. destruct (Hex j H1 H2) as [Hnil _]. congruence. }
    destruct (throws f) eqn:Hthrows; unfold drained; simpl.
    + split; [auto|]. split; [auto|].
      split; [intros j H1 H2; destruct (Hnone j H1 H2)|]. split; [auto|].
      exists (S k). split; [auto|]. exists f.
      replace (S k - 1) with k by lia. repeat split; auto; lia.
    + split; [auto|]. split; [auto|].
      split; [intros j H1 H2; destruct (Hnone j H1 H2)|]. split; [auto|].
      exists (S k). split; [auto|]. rewrite Hf, forallb_app, map_app, Hh, Hran.
      unfold harmless at 1. simpl. rewrite Hthrows, app_assoc. auto.
Qed.

Lemma drained_run sched :
  forall p0 p, drained p0 p -> drained p0 (run_workers sched p).
Proof.
  induction sched as [|i sched IH]; intros p0 p Hd; simpl; [exact Hd|].
  apply IH. apply drained_turn. exact Hd.
Qed.

Lemma all_exited_nth p i t :
  all_exited p = true -> nth_error (workers_ p) i = Some t -> t = Exited.
Proof.
  unfold all_exited. rewrite forallb_forall. intros H Hi.
  apply nth_error_In in Hi. apply H in Hi. now destruct t.
Qed.







End FiberQueueThreadPoolFacts.

(** ** Part III: further properties of the code *)

(** *** ClientChannel *)

Section ClientChannelMore.

Import ClientChannel ChannelRuns.

Lemma attempt_connected until it s :
  status_ (snd (fst (attempt until it s))) = success ->
  status_ s = success \/ In EvNonBlocking (snd (attempt until it s)).
Proof.
  unfold attempt, connect_cb.
  destruct (resolve_ok it); [|simpl; auto].
  destruct (cb_first it), (connect_ec it) eqn:Hec; simpl;
    repeat match goal with
           | |- context [if ?b then _ else _] => destruct b eqn:?; simpl
           end;
    intros H; try discriminate; auto 10.
Qed.

Lemma connect_loop_connected script :
  forall until dur s,
    status_ (snd (fst (connect_loop until dur script s))) = success ->
    status_ s = success \/ In EvNonBlocking (snd (connect_loop until dur script s)).
Proof.
  induction script as [|it script IH]; intros u dur s; simpl.
  - destruct (shutting_down_ s || negb (is_error (status_ s))); simpl; auto.
  - destruct (shutting_down_ s || negb (is_error (status_ s))); simpl; auto.
    destruct (negb (now_head it <? u)); simpl; auto.
    pose proof (attempt_connected u it s) as Ha.
    destruct (attempt u it s) as [[connected s1] evs]. simpl in Ha.
    destruct connected; simpl; auto.
    destruct (shutting_down_ s1 || (u <=? now_check it + ms 2)); simpl;
      [discriminate|].
    intros H. apply IH in H. simpl in H.
    destruct H as [H|H].
    + destruct (Ha H) as [H'|H']; auto.
      right. apply in_or_app. left. apply in_or_app. now left.
    + right. apply in_or_app. now right.
Qed.

(** [ResolveAndConnect] and [Connect] end with an ok status only on a channel
    that was connected already or after [connect_cb] has put the socket in
    non-blocking mode. *)
Theorem connected_means_nonblocking :
  (forall until script s,
     status_ (snd (fst (ResolveAndConnect until script s))) = success ->
     status_ s = success \/ In EvNonBlocking (snd (ResolveAndConnect until script s))) /\
  (forall timeout_ms now script s s' evs,
     Connect timeout_ms now script s = Some (Returned (success, s'), evs) ->
     (status_ s = success /\ s' = s /\ evs = []) \/ In EvNonBlocking evs).
Proof.
  split.
  - intros u script s. apply connect_loop_connected.
  - intros timeout_ms now script s s' evs. unfold Connect.
    destruct (negb (negb (shutting_down_ s) && negb (reconnect_active_ s)));
      [discriminate|].
    destruct (is_error (status_ s)) eqn:Herr; simpl.
    + pose proof (connect_loop_connected script (now + ms timeout_ms) 100 s) as Hc.
      unfold ResolveAndConnect.
      destruct (connect_loop (now + ms timeout_ms) 100 script s) as [[e s1] evs1].
      simpl in Hc.
      assert (Hgo : Some (Returned (status_ s1, s1),
                          EvPost :: EvSpawnFiber :: evs1 ++ [EvDoneNotify; EvDoneWait])
                    = Some (Returned (success, s'), evs) ->
                    In EvNonBlocking evs).
      { intros H. injection H as Hst <- <-. destruct (Hc Hst) as [H0|H0].
        - rewrite H0 in Herr. discriminate.
        - right. right. apply in_or_app. now left. }
      destruct e; intros H; try discriminate; right; apply Hgo; exact H.
    + intros H. injection H as Hst <- <-. left. auto.
Qed.

Lemma connected_means_nonblocking_witness :
  (status_ (mkState (failure 107) false false) = success /\
   mkState success false false = mkState (failure 107) false false /\
   [EvPost; EvSpawnFiber; EvResolve true; EvDoneReset; EvConnect (ms 50);
    EvTimerCancel; EvNonBlocking; EvDoneNotify; EvDoneNotify; EvDoneWait] = []) \/
  In EvNonBlocking
    [EvPost; EvSpawnFiber; EvResolve true; EvDoneReset; EvConnect (ms 50);
     EvTimerCancel; EvNonBlocking; EvDoneNotify; EvDoneNotify; EvDoneWait].
Proof.
  exact (proj2 connected_means_nonblocking 50 0
           [mkIteration 0 true true false success false 0 false]
           (mkState (failure 107) false false) (mkState success false false) _ eq_refl).
Defined.

(** Every back-off sleep of [ResolveAndConnect] is between 100ms and 1s
    long as asked for, ends after the clock reading it was computed from
    and at least 2ms before the deadline, and no later than 1s after that
    reading. *)
Theorem sleep_inside_window :
  forall until script s pre shut now dur sleep_until post,
    snd (ResolveAndConnect until script s)
    = pre ++ EvDeadlineCheck shut now :: EvSleep dur sleep_until :: post ->
    100 <= dur <= 1000 /\
    now < sleep_until /\
    sleep_until <= until - ms 2 /\
    sleep_until <= now + ms 1000.
Proof.
  intros u script s pre shut now dur t post H.
  unfold ResolveAndConnect in H. rewrite <- dur_at_0 in H.
  pose proof (connect_loop_schedule script u 0 s pre shut now _ ltac:(lia) H) as L.
  destruct (shut || (u <=? now + ms 2)) eqn:Hc.
  - destruct L as [L _]. discriminate L.
  - destruct L as [post' L]. injection L as -> -> _.
    apply orb_false_iff in Hc as [_ Hc]. apply Z.leb_gt in Hc.
    pose proof (sleeps_nonneg pre) as Hs.
    unfold dur_at, ms in *. lia.
Qed.

Lemma sleep_inside_window_witness :
  100 <= 200 <= 1000 /\ ms 120 < ms 320 /\ ms 320 <= ms 500 - ms 2 /\
  ms 320 <= ms 120 + ms 1000.
Proof.
  exact (sleep_inside_window (ms 500) demo_script demo_state
           demo_trace_1 false (ms 120) 200 (ms 320)
           [EvResolve true; EvDoneReset; EvConnect (ms 500);
            EvSockCancel; EvTimerCancel; EvDoneNotify; EvDoneWait;
            EvDeadlineCheck false (ms 499)] eq_refl).
Defined.

Lemma attempt_deadline until it s d :
  In (EvConnect d) (snd (attempt until it s)) -> d = until.
Proof.
  unfold attempt, connect_cb.
  destruct (resolve_ok it); [|simpl; intros [H|[]]; discriminate].
  destruct (cb_first it); simpl;
    repeat match goal with
           | |- context [if ?b then _ else _] => destruct b; simpl
           end;
    intros H;
    repeat match goal with
           | H : _ \/ _ |- _ => destruct H as [H|H]
           | H : False |- _ => destruct H
           | H : EvConnect _ = EvConnect _ |- _ => injection H as H; auto
           | H : _ = EvConnect _ |- _ => discriminate H
           end.
Qed.

Lemma connect_loop_deadline script :
  forall until dur s d,
    In (EvConnect d) (snd (connect_loop until dur script s)) -> d = until.
Proof.
  induction script as [|it script IH]; intros u dur s d; simpl.
  - destruct (shutting_down_ s || negb (is_error (status_ s))); simpl; tauto.
  - destruct (shutting_down_ s || negb (is_error (status_ s))); simpl; [tauto|].
    destruct (negb (now_head it <? u)); simpl; [tauto|].
    pose proof (attempt_deadline u it s d) as Ha.
    destruct (attempt u it s) as [[connected s1] evs]. simpl in Ha.
    destruct connected; simpl; [exact Ha|].
    destruct (shutting_down_ s1 || (u <=? now_check it + ms 2)); simpl.
    + intros H. apply in_app_or in H as [H|[H|[]]]; [auto|discriminate].
    + intros H. apply in_app_or in H as [H|H]; [|eauto].
      apply in_app_or in H as [H|[H|[H|[]]]]; [auto|discriminate|discriminate].
Qed.

(** All the connect attempts of one call share one deadline: [Connect]
    arms every timer at the clock it read plus its timeout, a reconnect
    fiber at the clock it read plus 30s; back-off never moves it. *)
Theorem one_deadline_per_call :
  (forall timeout_ms now script s o evs d,
     Connect timeout_ms now script s = Some (o, evs) ->
     In (EvConnect d) evs -> d = now + timeout_ms * 1000000) /\
  (forall now script shut_lock s s' evs d,
     ReconnectFiber now script shut_lock s = Some (s', evs) ->
     In (EvConnect d) evs -> d = now + 30 * 1000000000).
Proof.
  split.
  - intros timeout_ms now script s o evs d. unfold Connect.
    destruct (negb (negb (shutting_down_ s) && negb (reconnect_active_ s)));
      [intros H; injection H as <- <-; contradiction|].
    destruct (negb (is_error (status_ s)));
      [intros H; injection H as <- <-; contradiction|].
    pose proof (connect_loop_deadline script (now + ms timeout_ms) 100 s d) as Hd.
    unfold ResolveAndConnect.
    destruct (connect_loop (now + ms timeout_ms) 100 script s) as [[e s1] evs1].
    simpl in Hd.
    assert (Hgo : In (EvConnect d)
                    ([EvPost; EvSpawnFiber] ++ evs1 ++ [EvDoneNotify; EvDoneWait]) ->
                  d = now + timeout_ms * 1000000).
    { intros H. apply in_app_or in H as [[H|[H|[]]]|H]; try discriminate.
      apply in_app_or in H as [H|[H|[H|[]]]]; try discriminate. auto. }
    destruct e; intros H; try discriminate; injection H as <- <-; exact Hgo.
  - intros now script shut_lock s s' evs d. unfold ReconnectFiber.
    pose proof (connect_loop_deadline script (now + sec 30) 100 s d) as Hd.
    unfold ResolveAndConnect.
    destruct (connect_loop (now + sec 30) 100 script s) as [[e s1] evs1].
    simpl in Hd.
    assert (Hgo : In (EvConnect d)
                    (([EvSetNiceLevel nice_level] ++ evs1)
                       ++ snd (ReconnectFiber_tail shut_lock s1)) ->
                  d = now + 30 * 1000000000).
    { intros H. apply in_app_or in H as [H|H].
      - apply in_app_or in H as [[H|[]]|H]; [discriminate|auto].
      - unfold ReconnectFiber_tail, ReconnectFiber_locked in H.
        destruct (ReconnectFiber_rearms s1); simpl in H.
        + destruct H as [H|[]]. discriminate.
        + destruct (shutting_down_ s1 || shut_lock); simpl in H;
            [destruct H as [H|[]]; discriminate|contradiction]. }
    destruct e; intros H; try discriminate; injection H as <- <-; exact Hgo.
Qed.

Lemma one_deadline_per_call_witness : ms 50 = 0 + 50 * 1000000.
Proof.
  apply (proj1 one_deadline_per_call 50 0
           [mkIteration 0 true true false success false 0 false]
           (mkState (failure 107) false false)
           (Returned (success, mkState success false false))
           [EvPost; EvSpawnFiber; EvResolve true; EvDoneReset; EvConnect (ms 50);
            EvTimerCancel; EvNonBlocking; EvDoneNotify; EvDoneNotify; EvDoneWait]
           (ms 50)).
  - reflexivity.
  - simpl. auto 10.
Defined.

Lemma attempt_returns_connected until it s :
  fst (fst (attempt until it s)) = true ->
  status_ (snd (fst (attempt until it s))) = success.
Proof.
  unfold attempt, connect_cb.
  destruct (resolve_ok it); [|discriminate].
  destruct (cb_first it); simpl;
    repeat match goal with
           | |- context [if ?b then _ else _] => destruct b eqn:?; simpl
           end;
    try discriminate; intros _;
    match goal with
    | H : negb (is_error ?x) = true |- ?x = success =>
      destruct x; simpl in H; congruence
    end.
Qed.

Lemma connect_loop_leaves script :
  forall until dur s,
    (fst (fst (connect_loop until dur script s)) = ExitConnected ->
     status_ (snd (fst (connect_loop until dur script s))) = success) /\
    (fst (fst (connect_loop until dur script s)) = ExitAborted ->
     status_ (snd (fst (connect_loop until dur script s))) = operation_aborted) /\
    (shutting_down_ s = true ->
     shutting_down_ (snd (fst (connect_loop until dur script s))) = true).
Proof.
  induction script as [|it script IH]; intros u dur s; simpl.
  - destruct (shutting_down_ s || negb (is_error (status_ s))); simpl;
      repeat split; auto; discriminate.
  - destruct (shutting_down_ s || negb (is_error (status_ s))) eqn:Hhead; simpl;
      [repeat split; auto; discriminate|].
    apply orb_false_iff in Hhead as [Hs _].
    destruct (negb (now_head it <? u)); simpl;
      [repeat split; auto; discriminate|].
    pose proof (attempt_returns_connected u it s) as Ha.
    destruct (attempt u it s) as [[connected s1] evs]. simpl in Ha.
    destruct connected; simpl.
    + repeat split; auto; try discriminate. intros H. congruence.
    + destruct (shutting_down_ s1 || (u <=? now_check it + ms 2)); simpl.
      * repeat split; auto; try discriminate. intros H. congruence.
      * destruct (IH u (next_sleep_dur dur) (observe_shutdown (shut_sleep it) s1))
          as (H1 & H2 & _).
        repeat split; auto. intros H. congruence.
Qed.

(** How [ResolveAndConnect] leaves the channel: connected with an ok status,
    aborted with [operation_aborted]; it never clears [shutting_down_] and
    never writes [reconnect_active_]. *)
Theorem resolve_and_connect_leaves :
  forall until script s,
    (fst (fst (ResolveAndConnect until script s)) = ExitConnected ->
     status_ (snd (fst (ResolveAndConnect until script s))) = success) /\
    (fst (fst (ResolveAndConnect until script s)) = ExitAborted ->
     status_ (snd (fst (ResolveAndConnect until script s))) = operation_aborted) /\
    (shutting_down_ s = true ->
     ResolveAndConnect until script s = (ExitLoop, s, [])) /\
    reconnect_active_ (snd (fst (ResolveAndConnect until script s))) = reconnect_active_ s.
Proof.
  intros u script s. unfold ResolveAndConnect.
  destruct (connect_loop_leaves script u 100 s) as (H1 & H2 & _).
  split; [exact H1|]. split; [exact H2|].
  split; [|apply connect_loop_reconnect_active].
  intros Hs. destruct script; simpl; rewrite Hs; reflexivity.
Qed.

Lemma resolve_and_connect_leaves_witness :
  ResolveAndConnect (ms 500) demo_script (mkState (failure 107) true true)
  = (ExitLoop, mkState (failure 107) true true, []).
Proof.
  exact (proj1 (proj2 (proj2 (resolve_and_connect_leaves (ms 500) demo_script
                                (mkState (failure 107) true true))))
           eq_refl).
Defined.

Lemma shut_down_step s l s' : shut_down s -> step s l s' -> shut_down s'.
Proof.
  unfold shut_down. intros (Hs & Hr & Hi & Hf) Hstep.
  destruct Hstep as [c n k|c n k c' evs H|c n k ec|c n r k ok c' evs H
                     |c n r k Hs' Hm|c n k|c n k c' evs H];
    simpl in *; try discriminate; auto.
  - unfold HandleErrorStatus_returns. rewrite Hs. simpl. auto.
  - unfold Shutdown_begin in H. rewrite Hs in H. simpl in H.
    injection H as <- _. auto.
Qed.

(** Once [Shutdown] is under way with [reconnect_active_] clear and no
    fiber of the reactor at a lock, the channel stays so whatever is called:
    no reconnect fiber is ever spawned again. *)
Theorem no_reconnect_after_shutdown :
  forall s s',
    reachable s ->
    shutting_down_ (chan s) = true ->
    reconnect_active_ (chan s) = false ->
    reactor s = Idle ->
    steps s s' ->
    fibers s' = 0%nat /\ reconnect_active_ (chan s') = false /\
    shutting_down_ (chan s') = true.
Proof.
  intros s s' Hreach Hs Hr Hi Hsteps.
  assert (Hsd : shut_down s).
  { apply single_reconnect_reachable in Hreach as [Hn _].
    rewrite Hr in Hn. repeat split; assumption. }
  clear Hreach Hs Hr Hi.
  induction Hsteps as [s|s l s1 s2 Hstep _ IH].
  - destruct Hsd as (Hs & Hr & _ & Hf). auto.
  - apply IH. eapply shut_down_step; eassumption.
Qed.

Lemma no_reconnect_after_shutdown_witness :
  fibers (mkSystem (mkState (failure 107) true false) 0 Idle 1) = 0%nat /\
  reconnect_active_ (chan (mkSystem (mkState (failure 107) true false) 0 Idle 1)) = false /\
  shutting_down_ (chan (mkSystem (mkState (failure 107) true false) 0 Idle 1)) = true.
Proof.
  apply (no_reconnect_after_shutdown
           (mkSystem (mkState (failure 107) true false) 0 Idle 0)
           (mkSystem (mkState (failure 107) true false) 0 Idle 1)).
  - apply (reachable_step (mkSystem (mkState (failure 107) false false) 0 Idle 0)
             LShutdownBegin).
    + apply reachable_init. repeat split.
    + apply (step_shutdown_begin _ _ _ _ true _ [EvSockShutdown; EvSockCancel]).
      reflexivity.
  - reflexivity.
  - reflexivity.
  - reflexivity.
  - apply (steps_step _ LShutdownReturn
             (mkSystem (mkState (failure 107) true false) 0 Idle 1)).
    + apply step_shutdown_return; reflexivity.
    + apply steps_refl.
Defined.

End ClientChannelMore.

(** *** The range reader *)

Section GcsMore.

Import Gcs GcsFile.

#[local] Open Scope nat_scope.

Lemma wrap_wrap_add (a b : Z) : wrap (wrap a + b) = wrap (a + b).
Proof. unfold wrap. apply Z.add_mod_idemp_l. discriminate. Qed.

Lemma Open_offs object resp f : offs_ (snd (fst (Open object resp f))) = offs_ f.
Proof.
  unfold Open. destruct (SendGeneric object resp _) as [st|[c len]]; reflexivity.
Qed.

Lemma Open_status object resp f :
  fst (fst (Open object resp f)) = OK \/
  exists code, fst (fst (Open object resp f)) = SEND_ERROR code.
Proof.
  unfold Open, SendGeneric. destruct resp; simpl; eauto.
Qed.

(** What a turn does to the offset, the buffer and the position in it. *)
Lemma read_turn_accounts f buf read_sofar offs0 :
  read_sofar <= length buf ->
  offs_ f = wrap (offs0 + Z.of_nat read_sofar) ->
  match read_turn f buf read_sofar with
  | TurnReturn o f' buf' =>
    length buf' = length buf /\
    o <> Returned (Error INVALID_ARGUMENT) /\
    (forall n, o = Returned (Value n) ->
               n <= length buf /\ offs_ f' = wrap (offs0 + Z.of_nat n))
  | TurnReopen _ f' buf' read_sofar' =>
    length buf' = length buf /\
    read_sofar' <= length buf /\
    offs_ f' = wrap (offs0 + Z.of_nat read_sofar')
  end.
Proof.
  intros Hrs Hoffs. unfold read_turn.
  destruct (https_handle_ f) as [c|]; [|repeat split; intros; discriminate].
  pose proof (handle_Read_length c (length buf - read_sofar)) as Hlen.
  destruct (handle_Read c (length buf - read_sofar)) as [[data ec] c'].
  simpl in Hlen.
  assert (Hw : length (write_at buf read_sofar data) = length buf)
    by (apply length_write_at; lia).
  assert (Hh : length buf - read_sofar - (length buf - read_sofar - length data)
               = length data) by lia.
  rewrite Hh.
  assert (Hadv : wrap (offs_ f + Z.of_nat (length data))
                 = wrap (offs0 + Z.of_nat (read_sofar + length data))).
  { rewrite Hoffs, wrap_wrap_add. f_equal. lia. }
  destruct ec; simpl;
    try (destruct ((length buf - read_sofar - length data =? 0) || _));
    (split; [exact Hw|]); split;
    try discriminate; try lia;
    try (intros n Hn; try discriminate Hn; injection Hn as <-; split; [lia|];
         simpl; rewrite Hadv; f_equal; lia);
    simpl; try assumption; try (rewrite Hadv; reflexivity).
Qed.

Lemma read_loop_accounts object plan :
  forall f buf read_sofar offs0,
    read_sofar <= length buf ->
    offs_ f = wrap (offs0 + Z.of_nat read_sofar) ->
    length (buffer (read_loop object plan f buf read_sofar)) = length buf /\
    res (read_loop object plan f buf read_sofar) <> Returned (Error INVALID_ARGUMENT) /\
    (forall n, res (read_loop object plan f buf read_sofar) = Returned (Value n) ->
               n <= length buf /\
               offs_ (file (read_loop object plan f buf read_sofar))
               = wrap (offs0 + Z.of_nat n)).
Proof.
  induction plan as [|resp plan IH]; intros f buf rs offs0 Hrs Hoffs;
    rewrite read_loop_eq;
    (destruct (rs <? length buf) eqn:Hlt;
     [|simpl; split; [reflexivity|]; split; [discriminate|];
       intros n Hn; injection Hn as <-; auto]);
    pose proof (read_turn_accounts f buf rs offs0 Hrs Hoffs) as Ht;
    destruct (read_turn f buf rs) as [o f' buf'|h f' buf' rs'];
    try (destruct Ht as (H1 & H2 & H3); simpl; split; [exact H1|];
         split; [exact H2|exact H3]).
  - destruct Ht as (H1 & H2 & H3).
    pose proof (Open_status object (SendFails 0) f') as Hst.
    destruct (Open object (SendFails 0) f') as [[st f''] req]. simpl in *.
    split; [exact H1|]. destruct Hst as [->|[code ->]]; split; discriminate.
  - destruct Ht as (H1 & H2 & H3).
    pose proof (Open_offs object resp f') as Ho.
    pose proof (Open_status object resp f') as Hst.
    destruct (Open object resp f') as [[st f''] req]. simpl in Ho, Hst.
    destruct Hst as [->|[code ->]].
    + destruct (IH f'' buf' rs' offs0 ltac:(lia) ltac:(congruence)) as (I1 & I2 & I3).
      unfold with_request. simpl.
      split; [congruence|]. split; [exact I2|].
      intros n Hn. destruct (I3 n Hn). split; [lia|assumption].
    + simpl. split; [exact H1|]. split; discriminate.
Qed.

(** A [Read] that returns a count has been called at the reader's offset,
    has moved the offset by exactly that count, returns at most the size of
    the buffer and leaves the buffer its size: whatever the transport did,
    the next contiguous [Read] is accepted. *)
Theorem read_advances_by_its_result :
  forall object plan f offset buf n,
    (0 <= offs_ f < 2 ^ 64)%Z ->
    res (Read object plan f offset buf) = Returned (Value n) ->
    offset = offs_ f /\
    offs_ (file (Read object plan f offset buf)) = wrap (offs_ f + Z.of_nat n) /\
    n <= length buf /\
    length (buffer (Read object plan f offset buf)) = length buf.
Proof.
  intros object plan f offset buf n Hrange. unfold Read.
  destruct (is_nil buf); [discriminate|].
  destruct (Z.eqb_spec offset (offs_ f)) as [->|Hne]; simpl; [|discriminate].
  destruct (parser_is_done f); simpl.
  - intros H. injection H as <-. rewrite Z.add_0_r, wrap_small by assumption.
    repeat split; lia.
  - intros H.
    destruct (read_loop_accounts object plan f buf 0 (offs_ f) ltac:(lia))
      as (H1 & _ & H3).
    { rewrite Z.add_0_r, wrap_small; auto. }
    destruct (H3 n H). auto.
Qed.

Lemma read_advances_by_its_result_witness :
  2%Z = offs_ demo_reader /\
  offs_ (file (Read demo_object [] demo_reader 2 [Byte.x00; Byte.x00]))
  = wrap (offs_ demo_reader + Z.of_nat 2) /\
  2 <= length [Byte.x00; Byte.x00] /\
  length (buffer (Read demo_object [] demo_reader 2 [Byte.x00; Byte.x00]))
  = length [Byte.x00; Byte.x00].
Proof.
  apply (read_advances_by_its_result demo_object [] demo_reader 2%Z
           [Byte.x00; Byte.x00] 2).
  - simpl. lia.
  - reflexivity.
Defined.

(** [Close] always answers OK and drops the handle, leaving offset and size
    alone; it schedules a reconnect exactly when it holds a handle whose
    response has not been read to the end; a second [Close] does nothing. *)
Theorem close_releases_once :
  forall has_parser f,
    fst (fst (Close has_parser f)) = OK /\
    https_handle_ (snd (fst (Close has_parser f))) = None /\
    offs_ (snd (fst (Close has_parser f))) = offs_ f /\
    Size (snd (fst (Close has_parser f))) = Size f /\
    (In EvScheduleReconnect (snd (Close has_parser f)) <->
     https_handle_ f <> None /\ has_parser = true /\ parser_is_done f = false) /\
    (forall has_parser',
       Close has_parser' (snd (fst (Close has_parser f)))
       = (OK, snd (fst (Close has_parser f)), [])).
Proof.
  intros has_parser f. unfold Close, Size. simpl.
  do 4 (split; [reflexivity|]). split.
  - destruct (https_handle_ f), has_parser, (parser_is_done f); simpl;
      intuition (discriminate || congruence).
  - intros has_parser'. reflexivity.
Qed.

(** A [Read] after [Close], at the reader's offset: it still answers 0 when
    the response had been read to the end, and otherwise goes through the
    handle that [Close] has reset. *)
Theorem read_after_close :
  forall has_parser object plan f buf,
    buf <> [] ->
    res (Read object plan (snd (fst (Close has_parser f))) (offs_ f) buf)
    = if parser_is_done f then Returned (Value 0) else NullHandle.
Proof.
  intros has_parser object plan f buf Hbuf. unfold Close, Read. simpl.
  destruct buf as [|b buf]; [contradiction|]. cbv [is_nil].
  rewrite Z.eqb_refl. simpl.
  destruct (parser_is_done f); [reflexivity|].
  rewrite read_loop_eq. reflexivity.
Qed.

Lemma read_after_close_witness :
  res (Read demo_object [] (snd (fst (Close true demo_reader))) (offs_ demo_reader)
         [Byte.x00])
  = if parser_is_done demo_reader then Returned (Value 0) else NullHandle.
Proof.
  apply (read_after_close true demo_object [] demo_reader [Byte.x00]). discriminate.
Defined.

(** [Open] records as size the Content-Length of the response it got: after
    an [Open] at offset [pos] of an object of N bytes, [Size] is N - pos,
    the length of what is left; with no Content-Length, or when the sender
    gives up, [Size] stays what it was. *)
Theorem size_is_what_is_left :
  forall object fl f pos,
    (Z.of_nat (length object) < 2 ^ 64)%Z ->
    offs_ f = Z.of_nat pos -> pos <= length object ->
    Size (snd (fst (Open object (SendOk true fl) f))) = Z.of_nat (length object - pos) /\
    Size (snd (fst (Open object (SendOk false fl) f))) = Size f /\
    (forall code, Size (snd (fst (Open object (SendFails code) f))) = Size f).
Proof.
  intros object fl f pos Hsz Hoffs Hpos. unfold Size, Open, SendGeneric. simpl.
  repeat split. rewrite Hoffs.
  assert (Hlen : length (serve object
                           (mkRequest (if (Z.of_nat pos =? 0)%Z then None
                                       else Some (SetRange (Z.of_nat pos) kuint64max))))
                 = length object - pos).
  { unfold serve, SetRange. simpl.
    destruct (Z.eqb_spec (Z.of_nat pos) 0) as [H0|H0]; simpl.
    - lia.
    - rewrite Nat2Z.id, length_skipn. reflexivity. }
  rewrite Hlen. apply wrap_small. lia.
Qed.

Lemma size_is_what_is_left_witness :
  Size (snd (fst (Open demo_object (SendOk true None) demo_reader))) = Z.of_nat (5 - 2) /\
  Size (snd (fst (Open demo_object (SendOk false None) demo_reader))) = Size demo_reader /\
  (forall code, Size (snd (fst (Open demo_object (SendFails code) demo_reader)))
                = Size demo_reader).
Proof.
  apply (size_is_what_is_left demo_object None demo_reader 2).
  - vm_compute. reflexivity.
  - reflexivity.
  - simpl. lia.
Defined.

(** While reader and server are in step and the sender answers the
    reopenings, [Read] returns 0 at the end of the object and nowhere else:
    a truncation never shows up as an early end of file. *)
Theorem zero_only_at_the_end :
  forall object plan f buf pos fl,
    (Z.of_nat (length object) < 2 ^ 64)%Z ->
    synced object pos fl f ->
    covered fl plan ->
    buf <> [] ->
    (res (Read object plan f (Z.of_nat pos) buf) = Returned (Value 0) <->
     pos = length object).
Proof.
  intros object plan f buf pos fl Hsz Hsync Hcov Hbuf.
  pose proof (Read_synced object plan f buf pos fl Hsz Hsync Hcov Hbuf) as HR.
  destruct (Nat.eqb_spec pos (length object)) as [Heq|Hne].
  - rewrite HR. simpl. tauto.
  - destruct HR as (n & f' & buf' & plan' & fl' & reqs & -> & Hn & _). simpl.
    split; [intros H; injection H as ->; lia|contradiction].
Qed.

Lemma zero_only_at_the_end_witness :
  res (Read demo_object [SendOk true None]
         (mkFile 2 3 (Some (mkConnection (skipn 2 demo_object)
                              (Some (0, stream_truncated)))) false)
         (Z.of_nat 2) [Byte.x00]) = Returned (Value 0) <->
  2 = length demo_object.
Proof.
  apply (zero_only_at_the_end demo_object [SendOk true None] _ [Byte.x00] 2
           (Some (0, stream_truncated))).
  - vm_compute. reflexivity.
  - repeat split. simpl. lia.
  - simpl. auto.
  - discriminate.
Defined.

End GcsMore.

(** *** The accept server *)

Section AcceptServerMore.

Import AcceptServer AcceptTrace.

#[local] Open Scope nat_scope.

(** When the accept loop ends, [RunInIOThread] has linked and run each
    accepted handler once, in the order of acceptance, and then closes,
    once each and in that order, the sockets of exactly the handlers that
    have not returned yet; a handler that returned earlier is not touched. *)
Theorem closes_the_live_handlers :
  forall pre x post s,
    well_formed pre 0 = true ->
    forallb (fun y => negb (is_exit y)) pre = true ->
    is_exit x = true ->
    accepted (RunInIOThread (pre ++ x :: post) s) = accepts pre /\
    clist_at_exit (RunInIOThread (pre ++ x :: post) s)
    = filter (fun h => negb (returned_in pre h)) (seq 0 (accepts pre)) /\
    NoDup (clist_at_exit (RunInIOThread (pre ++ x :: post) s)) /\
    exists tail,
      trace (RunInIOThread (pre ++ x :: post) s)
      = flat_map link_run (seq 0 (accepts pre)) ++ caught x
          ++ map EvClose (clist_at_exit (RunInIOThread (pre ++ x :: post) s)) ++ tail /\
      (tail = [] \/ tail = [EvNotifyDone]).
Proof.
  intros pre x post s Hwf Hpre Hx. unfold RunInIOThread.
  rewrite (accept_loop_until_exit pre x post 0 [] Hwf Hpre Hx). simpl.
  destruct (wait_empty post _) as [[|] clist]; simpl;
    (split; [reflexivity|]); (split; [reflexivity|]);
    (split; [apply NoDup_filter, seq_NoDup|]).
  - exists [EvNotifyDone]. rewrite <- !app_assoc. auto.
  - exists []. rewrite <- !app_assoc, app_nil_r. auto.
Qed.

Lemma closes_the_live_handlers_witness :
  accepted (RunInIOThread ([Accepted; Accepted; HandlerReturned 0]
                             ++ AcceptFailed :: [HandlerReturned 1]) constructed)
  = accepts [Accepted; Accepted; HandlerReturned 0] /\
  clist_at_exit (RunInIOThread ([Accepted; Accepted; HandlerReturned 0]
                                  ++ AcceptFailed :: [HandlerReturned 1]) constructed)
  = [1] /\
  NoDup (clist_at_exit (RunInIOThread ([Accepted; Accepted; HandlerReturned 0]
                                         ++ AcceptFailed :: [HandlerReturned 1])
                          constructed)) /\
  exists tail,
    trace (RunInIOThread ([Accepted; Accepted; HandlerReturned 0]
                            ++ AcceptFailed :: [HandlerReturned 1]) constructed)
    = flat_map link_run (seq 0 2) ++ caught AcceptFailed
        ++ map EvClose (clist_at_exit
                          (RunInIOThread ([Accepted; Accepted; HandlerReturned 0]
                                            ++ AcceptFailed :: [HandlerReturned 1])
                             constructed)) ++ tail /\
    (tail = [] \/ tail = [EvNotifyDone]).
Proof.
  exact (closes_the_live_handlers [Accepted; Accepted; HandlerReturned 0] AcceptFailed
           [HandlerReturned 1] constructed eq_refl eq_refl eq_refl).
Defined.

End AcceptServerMore.

(** *** The thread pool *)

Section FiberQueueThreadPoolMore.

Import FiberQueueThreadPool PoolLife.

#[local] Open Scope nat_scope.

Lemma aborted_stays sched :
  forall p, aborted p = true -> run_workers sched p = p.
Proof.
  induction sched as [|i sched IH]; intros p Ha; simpl; [reflexivity|].
  unfold WorkerFunction_turn. rewrite Ha. now apply IH.
Qed.

Lemma no_workers_run sched :
  forall p, workers_ p = [] -> run_workers sched p = p.
Proof.
  induction sched as [|i sched IH]; intros p Hw; simpl; [reflexivity|].
  unfold WorkerFunction_turn. rewrite Hw.
  destruct (aborted p); [now apply IH|].
  destruct i; simpl; now apply IH.
Qed.

(** What the workers do while the channel is open. *)
Lemma open_turn p0 p i k :
  closed (input_ p) = false ->
  workers_ p = workers_ p0 ->
  items (input_ p) = skipn k (items (input_ p0)) ->
  (aborted p = false -> ran p = ran p0 ++ map tag (firstn k (items (input_ p0)))) ->
  closed (input_ (WorkerFunction_turn i p)) = false /\
  workers_ (WorkerFunction_turn i p) = workers_ p0 /\
  exists k',
    items (input_ (WorkerFunction_turn i p)) = skipn k' (items (input_ p0)) /\
    (aborted (WorkerFunction_turn i p) = false ->
     ran (WorkerFunction_turn i p) = ran p0 ++ map tag (firstn k' (items (input_ p0)))).
Proof.
  intros Hc Hw Hitems Hran.
  assert (Hsame : closed (input_ p) = false /\
                  workers_ p = workers_ p0 /\
                  exists k',
                    items (input_ p) = skipn k' (items (input_ p0)) /\
                    (aborted p = false ->
                     ran p = ran p0 ++ map tag (firstn k' (items (input_ p0)))))
    by (split; [|split]; [assumption..|exists k; split; assumption]).
  unfold WorkerFunction_turn.
  destruct (aborted p) eqn:Ha; [rewrite Ha; exact Hsame|].
  destruct (nth_error (workers_ p) i) as [[|]|]; try (rewrite Ha; exact Hsame).
  unfold pop. destruct (items (input_ p)) as [|f q] eqn:Hq.
  - rewrite Hc, Ha, Hq. exact Hsame.
  - symmetry in Hitems. apply skipn_cons_inv in Hitems as (_ & Hs & Hf).
    destruct (throws f); simpl; (split; [exact Hc|]); (split; [exact Hw|]);
      exists (S k); (split; [now symmetry|]); [discriminate|].
    intros _. rewrite Hf, map_app, app_assoc, <- Hran by reflexivity. reflexivity.
Qed.

(** As long as nobody has closed the channel, no worker leaves
    [WorkerFunction], whatever turns the workers take and whether or not
    closures are waiting: the threads of a pool end only through [Shutdown].
    Meanwhile the closures are taken from the front of the channel and run
    in that order. *)
Theorem workers_stay_while_open :
  forall sched p,
    closed (input_ p) = false ->
    closed (input_ (run_workers sched p)) = false /\
    workers_ (run_workers sched p) = workers_ p /\
    exists k,
      items (input_ (run_workers sched p)) = skipn k (items (input_ p)) /\
      (aborted (run_workers sched p) = false ->
       ran (run_workers sched p) = ran p ++ map tag (firstn k (items (input_ p)))).
Proof.
  intros sched p Hc.
  enough (H : forall q k,
             closed (input_ q) = false ->
             workers_ q = workers_ p ->
             items (input_ q) = skipn k (items (input_ p)) ->
             (aborted q = false -> ran q = ran p ++ map tag (firstn k (items (input_ p)))) ->
             closed (input_ (run_workers sched q)) = false /\
             workers_ (run_workers sched q) = workers_ p /\
             exists k',
               items (input_ (run_workers sched q)) = skipn k' (items (input_ p)) /\
               (aborted (run_workers sched q) = false ->
                ran (run_workers sched q)
                = ran p ++ map tag (firstn k' (items (input_ p))))).
  { apply (H p 0); auto. intros _. simpl. now rewrite app_nil_r. }
  induction sched as [|i sched IH]; intros q k Hq Hw Hitems Hran; simpl.
  - eauto.
  - destruct (open_turn p q i k Hq Hw Hitems Hran) as (Hq' & Hw' & k' & Hitems' & Hran').
    apply (IH _ k'); assumption.
Qed.

Lemma workers_stay_while_open_witness :
  closed (input_ (run_workers [1; 0; 0; 1; 0] demo_pool)) = false /\
  workers_ (run_workers [1; 0; 0; 1; 0] demo_pool) = [Running; Running] /\
  exists k,
    items (input_ (run_workers [1; 0; 0; 1; 0] demo_pool))
    = skipn k (items (input_ demo_pool)) /\
    (aborted (run_workers [1; 0; 0; 1; 0] demo_pool) = false ->
     ran (run_workers [1; 0; 0; 1; 0] demo_pool)
     = ran demo_pool ++ map tag (firstn k (items (input_ demo_pool)))).
Proof.
  exact (workers_stay_while_open [1; 0; 0; 1; 0] demo_pool eq_refl).
Defined.

(** The destructor of a pool that still has threads is [Shutdown].  If it
    returns, no closure that was waiting threw: all of them have run, in the
    order of the channel, whatever turns the workers took; the channel is
    closed and empty and the threads are gone.  After that a second
    [Shutdown] and the destructor both return at once and change nothing. *)
Theorem destructor_runs_what_is_left :
  forall sched p q,
    aborted p = false ->
    In Running (workers_ p) ->
    destructor sched p = Some q ->
    Shutdown sched p = Some q /\
    forallb harmless (items (input_ p)) = true /\
    q = mkPool (mkChannel [] true) [] (ran p ++ map tag (items (input_ p))) false /\
    forall sched', Shutdown sched' q = Some q /\ destructor sched' q = Some q.
Proof.
  intros sched p q Ha Hin Hq.
  assert (Hs : Shutdown sched p = Some q)
    by (unfold destructor in Hq; destruct (workers_ p); [destruct Hin|exact Hq]).
  split; [exact Hs|]. clear Hq.
  assert (Hd : drained (closing p) (run_workers sched (closing p)))
    by (apply drained_run, drained_refl; [reflexivity|exact Ha]).
  destruct Hd as (Hc & Hlen & Hex & _ & k & Hitems & Hran).
  simpl in Hlen, Hex, Hitems, Hran. unfold Shutdown in Hs.
  destruct (aborted (run_workers sched (closing p))) eqn:Hab; [discriminate|].
  destruct (all_exited (run_workers sched (closing p))) eqn:Hall; [|discriminate].
  simpl in Hs. injection Hs as <-.
  apply In_nth_error in Hin as [i Hi].
  assert (Hi' : nth_error (workers_ (run_workers sched (closing p))) i = Some Exited).
  { destruct (nth_error (workers_ (run_workers sched (closing p))) i) as [t|] eqn:Ht.
    - f_equal. eapply all_exited_nth; eassumption.
    - apply nth_error_None in Ht.
      assert (i < length (workers_ p)) by (apply nth_error_Some; congruence). lia. }
  destruct (Hex i Hi Hi') as [Hnil _].
  assert (Hall' : firstn k (items (input_ p)) = items (input_ p)).
  { apply firstn_all2.
    assert (Hl : length (skipn k (items (input_ p))) = 0) by (rewrite <- Hitems, Hnil; reflexivity).
    rewrite length_skipn in Hl. lia. }
  destruct Hran as [Hh Hran]. rewrite Hall' in Hh, Hran.
  assert (Hch : input_ (run_workers sched (closing p)) = mkChannel [] true)
    by (destruct (input_ (run_workers sched (closing p))); simpl in *; congruence).
  rewrite Hch, Hran.
  split; [exact Hh|]. split; [reflexivity|].
  intros sched'. unfold destructor, Shutdown, closing, close. simpl.
  rewrite no_workers_run by reflexivity. auto.
Qed.

Lemma destructor_runs_what_is_left_witness :
  Shutdown [1; 0; 0; 1; 0] demo_pool
  = Some (mkPool (mkChannel [] true) [] [7; 8; 9] false) /\
  forallb harmless (items (input_ demo_pool)) = true /\
  mkPool (mkChannel [] true) [] [7; 8; 9] false
  = mkPool (mkChannel [] true) [] (ran demo_pool ++ map tag (items (input_ demo_pool))) false /\
  forall sched',
    Shutdown sched' (mkPool (mkChannel [] true) [] [7; 8; 9] false)
    = Some (mkPool (mkChannel [] true) [] [7; 8; 9] false) /\
    destructor sched' (mkPool (mkChannel [] true) [] [7; 8; 9] false)
    = Some (mkPool (mkChannel [] true) [] [7; 8; 9] false).
Proof.
  apply (destructor_runs_what_is_left [1; 0; 0; 1; 0] demo_pool
           (mkPool (mkChannel [] true) [] [7; 8; 9] false)).
  - reflexivity.
  - simpl. auto.
  - reflexivity.
Defined.

(** A closure that throws keeps [Shutdown] from returning: with a thread
    still in [WorkerFunction], the closure is popped before the last thread
    can leave, and popping it ends the process. *)
Theorem throwing_closure_blocks_shutdown :
  forall sched p f,
    aborted p = false ->
    In Running (workers_ p) ->
    In f (items (input_ p)) ->
    throws f = true ->
    Shutdown sched p = None /\ destructor sched p = None.
Proof.
  intros sched p f Ha Hin Hf Ht.
  assert (Hs : Shutdown sched p = None).
  { destruct (Shutdown sched p) as [q|] eqn:Hs; [|reflexivity]. exfalso.
    assert (Hd : drained (closing p) (run_workers sched (closing p)))
      by (apply drained_run, drained_refl; [reflexivity|exact Ha]).
    destruct Hd as (Hc & Hlen & Hex & _ & k & Hitems & Hran).
    simpl in Hlen, Hex, Hitems, Hran. unfold Shutdown in Hs.
    destruct (aborted (run_workers sched (closing p))) eqn:Hab; [discriminate|].
    destruct (all_exited (run_workers sched (closing p))) eqn:Hall; [|discriminate].
    apply In_nth_error in Hin as [i Hi].
    assert (Hi' : nth_error (workers_ (run_workers sched (closing p))) i = Some Exited).
    { destruct (nth_error (workers_ (run_workers sched (closing p))) i) as [t|] eqn:Hn.
      - f_equal. eapply all_exited_nth; eassumption.
      - apply nth_error_None in Hn.
        assert (i < length (workers_ p)) by (apply nth_error_Some; congruence). lia. }
    destruct (Hex i Hi Hi') as [Hnil _].
    assert (Hall' : firstn k (items (input_ p)) = items (input_ p)).
    { apply firstn_all2.
      assert (Hl : length (skipn k (items (input_ p))) = 0)
        by (rewrite <- Hitems, Hnil; reflexivity).
      rewrite length_skipn in Hl. lia. }
    destruct Hran as [Hh _]. rewrite Hall' in Hh.
    rewrite forallb_forall in Hh. apply Hh in Hf. unfold harmless in Hf.
    rewrite Ht in Hf. discriminate. }
  split; [exact Hs|]. unfold destructor.
  destruct (workers_ p); [destruct Hin|exact Hs].
Qed.

Lemma throwing_closure_blocks_shutdown_witness :
  Shutdown [0; 0; 0] (mkPool (mkChannel [mkFunc 7 false; mkFunc 8 true] false)
                        [Running] [] false) = None /\
  destructor [0; 0; 0] (mkPool (mkChannel [mkFunc 7 false; mkFunc 8 true] false)
                          [Running] [] false) = None.
Proof.
  apply (throwing_closure_blocks_shutdown [0; 0; 0]
           (mkPool (mkChannel [mkFunc 7 false; mkFunc 8 true] false) [Running] [] false)
           (mkFunc 8 true)).
  - reflexivity.
  - simpl. auto.
  - simpl. auto.
  - reflexivity.
Defined.

(** The constructor starts [num_threads] workers, and
    [hardware_concurrency()] of them when [num_threads] is 0; all of them
    are in [WorkerFunction], the channel is open and empty and nothing has
    run.  So a pool gets no thread exactly when [num_threads] is 0 and
    [hardware_concurrency()] answers 0 too, which the standard allows.  In
    a pool without threads nothing is ever run, and the destructor returns
    without closing the channel, so what was pushed stays where it is. *)
Theorem pool_without_threads :
  forall hardware_concurrency num_threads,
    (workers_ (construct hardware_concurrency num_threads) = []
     <-> num_threads = 0 /\ hardware_concurrency = 0) /\
    Forall (fun t => t = Running) (workers_ (construct hardware_concurrency num_threads)) /\
    (0 < num_threads ->
     length (workers_ (construct hardware_concurrency num_threads)) = num_threads) /\
    (num_threads = 0 ->
     length (workers_ (construct hardware_concurrency num_threads)) = hardware_concurrency) /\
    input_ (construct hardware_concurrency num_threads) = mkChannel [] false /\
    ran (construct hardware_concurrency num_threads) = [] /\
    aborted (construct hardware_concurrency num_threads) = false /\
    forall p sched,
      workers_ p = [] ->
      run_workers sched p = p /\ destructor sched p = Some p.
Proof.
  intros hw n. unfold construct. simpl. split; [|split; [|split; [|split]]].
  - destruct n; simpl.
    + destruct hw; simpl; intuition (discriminate || congruence).
    + intuition (discriminate || congruence).
  - apply Forall_forall. intros t Ht. now apply repeat_spec in Ht.
  - intros Hn. rewrite repeat_length. destruct n; [lia|reflexivity].
  - intros ->. now rewrite repeat_length.
  - do 3 (split; [reflexivity|]).
    intros p sched Hw. split; [now apply no_workers_run|].
    unfold destructor. now rewrite Hw.
Qed.

Lemma pool_without_threads_witness :
  run_workers [0; 1] (mkPool (mkChannel [mkFunc 7 false] false) [] [] false)
  = mkPool (mkChannel [mkFunc 7 false] false) [] [] false /\
  destructor [0; 1] (mkPool (mkChannel [mkFunc 7 false] false) [] [] false)
  = Some (mkPool (mkChannel [mkFunc 7 false] false) [] [] false).
Proof.
  exact (proj2 (proj2 (proj2 (proj2 (proj2 (proj2 (proj2 (pool_without_threads 0 0)))))))
           (mkPool (mkChannel [mkFunc 7 false] false) [] [] false) [0; 1] eq_refl).
Defined.

End FiberQueueThreadPoolMore.

(** *** The executor of [examples/mr3.cc] *)

Section Mr3Facts.

Import Mr3 String.StringSyntax.

#[local] Open Scope string_scope.

(** [a & 2^n] keeps bit [n] of [a] and nothing else. *)
Lemma land_bit a n : 0 <= n -> Z.land a (2 ^ n) = Z.b2z (Z.testbit a n) * 2 ^ n.
Proof.
  intros Hn. apply Z.bits_inj'. intros m Hm.
  rewrite Z.land_spec, Z.pow2_bits_eqb by assumption.
  rewrite Z.mul_pow2_bits by assumption.
  destruct (Z.eqb_spec n m) as [->|Hne].
  - rewrite Z.sub_diag, andb_true_r. destruct (Z.testbit a m); reflexivity.
  - rewrite andb_false_r. destruct (Z.testbit a n); simpl.
    + destruct (Z.ltb_spec m n).
      * rewrite Z.testbit_neg_r by lia. reflexivity.
      * symmetry. apply (Z.bits_above_log2 1); simpl; lia.
    + now rewrite Z.testbit_0_l.
Qed.

(** The file type field is the four bits from bit 12 on. *)
Lemma file_type_field mode : file_type mode = 4096 * ((mode / 4096) mod 16).
Proof.
  unfold file_type, S_IFMT.
  change 61440 with (Z.shiftl (Z.ones 4) 12).
  rewrite <- (Z.mul_comm _ 4096). change 4096 with (2 ^ 12).
  rewrite <- Z.shiftl_mul_pow2, <- Z.shiftr_div_pow2, <- (Z.land_ones _ 4) by lia.
  apply Z.bits_inj'. intros m Hm.
  rewrite Z.land_spec, !Z.shiftl_spec, Z.land_spec by assumption.
  destruct (Z.ltb_spec m 12).
  - rewrite !(Z.testbit_neg_r _ (m - 12)) by lia. now rewrite andb_false_r.
  - rewrite Z.shiftr_spec by lia. replace (m - 12 + 12) with m by lia. reflexivity.
Qed.

Lemma is_wanted_file_type v :
  is_wanted v = true <-> S_IFREG <= file_type (st_mode v).
Proof.
  unfold is_wanted. rewrite negb_true_iff, Z.eqb_neq, file_type_field.
  unfold S_IFREG. change 32768 with (2 ^ 15) at 1. rewrite land_bit by lia.
  rewrite Z.testbit_eqb by lia. change (2 ^ 15) with 32768.
  replace (st_mode v / 32768) with (st_mode v / 4096 / 8)
    by (rewrite Z.div_div by lia; reflexivity).
  generalize (st_mode v / 4096). intros q.
  destruct (Z.eqb_spec ((q / 8) mod 2) 1) as [H|H]; unfold Z.b2z;
    Z.to_euclidean_division_equations; lia.
Qed.

(** The test of line 82 looks at one bit of the file type, the one
    [S_IFREG] sets: it lets through every entry whose type field is at
    least [S_IFREG].  So [Run] queues regular files, and symbolic links and
    sockets as well, whatever the permission bits; it drops directories,
    FIFOs and character and block devices. *)
Theorem regular_file_test :
  (forall v, is_wanted v = true <-> S_IFREG <= file_type (st_mode v)) /\
  (forall n perm,
     0 <= perm < 4096 ->
     is_wanted (mkStat n (S_IFREG + perm)) = true /\
     is_wanted (mkStat n (S_IFLNK + perm)) = true /\
     is_wanted (mkStat n (S_IFSOCK + perm)) = true /\
     is_wanted (mkStat n (S_IFDIR + perm)) = false /\
     is_wanted (mkStat n (S_IFIFO + perm)) = false /\
     is_wanted (mkStat n (S_IFCHR + perm)) = false /\
     is_wanted (mkStat n (S_IFBLK + perm)) = false).
Proof.
  split; [exact is_wanted_file_type|].
  intros n perm Hperm.
  assert (Hyes : forall t, 8 <= t < 16 -> is_wanted (mkStat n (4096 * t + perm)) = true).
  { intros t Ht. apply is_wanted_file_type. cbn [st_mode]. rewrite file_type_field.
    unfold S_IFREG. Z.to_euclidean_division_equations. lia. }
  assert (Hno : forall t, 0 <= t < 8 -> is_wanted (mkStat n (4096 * t + perm)) = false).
  { intros t Ht. apply not_true_is_false. rewrite is_wanted_file_type. cbn [st_mode].
    rewrite file_type_field. unfold S_IFREG. Z.to_euclidean_division_equations. lia. }
  split; [apply (Hyes 8); lia|]. split; [apply (Hyes 10); lia|].
  split; [apply (Hyes 12); lia|]. split; [apply (Hno 4); lia|].
  split; [apply (Hno 1); lia|]. split; [apply (Hno 2); lia|].
  apply (Hno 6); lia.
Qed.

Lemma regular_file_test_witness :
  is_wanted (mkStat String.EmptyString (S_IFREG + 420)) = true /\
  is_wanted (mkStat String.EmptyString (S_IFLNK + 420)) = true /\
  is_wanted (mkStat String.EmptyString (S_IFSOCK + 420)) = true /\
  is_wanted (mkStat String.EmptyString (S_IFDIR + 420)) = false /\
  is_wanted (mkStat String.EmptyString (S_IFIFO + 420)) = false /\
  is_wanted (mkStat String.EmptyString (S_IFCHR + 420)) = false /\
  is_wanted (mkStat String.EmptyString (S_IFBLK + 420)) = false.
Proof.
  apply (proj2 regular_file_test String.EmptyString 420). lia.
Defined.

Lemma pushed_push (l : list file_name) : pushed (map EvPush l) = l.
Proof. induction l as [|f l IH]; simpl; [reflexivity|]. f_equal. exact IH. Qed.

Lemma push_paths_open paths :
  push_paths false paths = (true, map EvPush (map name (filter is_wanted paths))).
Proof.
  induction paths as [|v paths IH]; simpl; [reflexivity|].
  destruct (is_wanted v); simpl; now rewrite IH.
Qed.

Lemma push_specs_open StatFiles specs :
  push_specs StatFiles false specs
  = (true, map EvPush (map name (filter is_wanted (flat_map StatFiles specs)))).
Proof.
  induction specs as [|glob specs IH]; simpl; [reflexivity|].
  rewrite push_paths_open, IH, filter_app, !map_app. reflexivity.
Qed.

Lemma push_paths_ok closed paths :
  fst (push_paths closed paths) = negb (closed && existsb is_wanted paths).
Proof.
  induction paths as [|v paths IH]; simpl; [now rewrite andb_false_r|].
  destruct (is_wanted v); simpl; [|exact IH].
  destruct closed; simpl; [reflexivity|].
  destruct (push_paths false paths); simpl in *. exact IH.
Qed.

Lemma push_specs_ok StatFiles closed specs :
  fst (push_specs StatFiles closed specs)
  = negb (closed && existsb is_wanted (flat_map StatFiles specs)).
Proof.
  induction specs as [|glob specs IH]; simpl; [now rewrite andb_false_r|].
  pose proof (push_paths_ok closed (StatFiles glob)) as Hp.
  destruct (push_paths closed (StatFiles glob)) as [ok evs]. simpl in Hp.
  symmetry in Hp. rewrite existsb_app.
  destruct ok.
  - destruct (push_specs StatFiles closed specs) as [ok' evs']. simpl in *.
    rewrite IH. destruct closed; simpl in *; [|reflexivity].
    apply negb_true_iff in Hp. now rewrite Hp.
  - simpl. apply negb_false_iff in Hp. apply andb_true_iff in Hp as [-> ->]. reflexivity.
Qed.

(** [Run] stops at its first two checks, before anything else happens,
    exactly when the input is null, has no file spec or has no format.
    Otherwise it queues the names of the entries that pass the test of
    line 82, spec after spec, each spec in the order [StatFiles] gave; and
    it fails the check of line 84 exactly when the queue is closed and there
    is a name to queue. *)
Theorem run_queues_in_order :
  forall input StatFiles queue_closed,
    (Run input StatFiles queue_closed = (CheckFailed, [])
     <-> input = None
         \/ exists m, input = Some m /\ (file_spec m = [] \/ format m = None)) /\
    forall m tp,
      input = Some m ->
      file_spec m <> [] ->
      format m = Some tp ->
      (fst (Run input StatFiles queue_closed) = CheckFailed
       <-> queue_closed = true /\
           existsb is_wanted (flat_map StatFiles (file_spec m)) = true) /\
      (queue_closed = false ->
       Run input StatFiles queue_closed
       = (Returned,
          EvLogRunning (msg_name m) :: EvAwaitOnAll tp
            :: map EvPush (map name (filter is_wanted (flat_map StatFiles (file_spec m))))) /\
       pushed (snd (Run input StatFiles queue_closed))
       = map name (filter is_wanted (flat_map StatFiles (file_spec m)))).
Proof.
  intros input StatFiles closed. split.
  - unfold Run. destruct input as [m|]; [|intuition].
    destruct (file_spec m) as [|g specs] eqn:Hs; cbn [is_nil].
    + split; [intros _; right; exists m; auto|reflexivity].
    + destruct (format m) as [tp|] eqn:Hf.
      * destruct (push_specs StatFiles closed (g :: specs)) as [ok evs].
        split; [discriminate|].
        intros [H|(m' & H & [H'|H'])]; [discriminate| |]; injection H as <-; congruence.
      * split; [intros _; right; exists m; auto|reflexivity].
  - intros m tp -> Hs Hf. unfold Run. rewrite Hf.
    destruct (file_spec m) as [|g specs] eqn:Hspecs; [congruence|]. cbn [is_nil].
    split.
    + pose proof (push_specs_ok StatFiles closed (g :: specs)) as Hok.
      destruct (push_specs StatFiles closed (g :: specs)) as [ok evs]. cbn [fst] in *.
      rewrite Hok.
      destruct closed, (existsb is_wanted (flat_map StatFiles (g :: specs))); simpl;
        intuition (discriminate || congruence).
    + intros ->. rewrite push_specs_open. cbn [snd]. split; [reflexivity|].
      apply (pushed_push (map name (filter is_wanted (flat_map StatFiles (g :: specs))))).
Qed.

Lemma run_queues_in_order_witness :
  (fst (Run (Some demo_input) demo_stat false) = CheckFailed
   <-> false = true /\
       existsb is_wanted (flat_map demo_stat (file_spec demo_input)) = true) /\
  (false = false ->
   Run (Some demo_input) demo_stat false
   = (Returned, [EvLogRunning "inp1"; EvAwaitOnAll TXT; EvPush "data/a.txt"]) /\
   pushed (snd (Run (Some demo_input) demo_stat false)) = ["data/a.txt"]).
Proof.
  apply (proj2 (run_queues_in_order (Some demo_input) demo_stat false) demo_input TXT).
  - reflexivity.
  - discriminate.
  - reflexivity.
Defined.

Lemma processed_app evs1 evs2 : processed (evs1 ++ evs2) = processed evs1 ++ processed evs2.
Proof. apply flat_map_app. Qed.

Lemma popped_app evs1 evs2 : popped (evs1 ++ evs2) = popped evs1 ++ popped evs2.
Proof. apply flat_map_app. Qed.

(** With the format [TXT], [ProcessFiles] never reaches [LOG(FATAL)]: it
    takes every name of the queue, runs [ProcessText] on those that could be
    opened, in the order of the queue, and skips the others.  It leaves its
    loop only if the queue is closed, and then only once the queue is
    empty; otherwise it stays in [pop]. *)
Theorem process_files_text :
  forall queue closed,
    fst (ProcessFiles TXT queue closed) = (if closed then LoopLeft else Suspended) /\
    popped (snd (ProcessFiles TXT queue closed)) = map fst queue /\
    processed (snd (ProcessFiles TXT queue closed)) = map fst (filter snd queue) /\
    ~ In EvFatal (snd (ProcessFiles TXT queue closed)).
Proof.
  intros queue closed. induction queue as [|[f opens] queue (IH1 & IH2 & IH3 & IH4)]; simpl.
  - intuition.
  - destruct opens; unfold later; simpl; rewrite IH2, IH3;
      (split; [exact IH1|]); (split; [reflexivity|]); (split; [reflexivity|]);
      intros [H|[H|H]]; try discriminate; try destruct H as [H|H]; try discriminate;
        now apply IH4.
Qed.

(** With any other format, [ProcessFiles] ends the process at the first
    file that can be opened, and the names queued behind it are never
    taken; it goes on, as for text, only while every file fails to open.
    It never runs [ProcessText]. *)
Theorem process_files_other_format :
  forall code queue closed,
    (fst (ProcessFiles (OtherFormat code) queue closed) = Fatal
     <-> existsb snd queue = true) /\
    processed (snd (ProcessFiles (OtherFormat code) queue closed)) = [] /\
    (forall before f after,
       queue = before ++ (f, true) :: after ->
       forallb (fun x => negb (snd x)) before = true ->
       fst (ProcessFiles (OtherFormat code) queue closed) = Fatal /\
       popped (snd (ProcessFiles (OtherFormat code) queue closed)) = map fst before ++ [f]) /\
    (existsb snd queue = false ->
     ProcessFiles (OtherFormat code) queue closed = ProcessFiles TXT queue closed).
Proof.
  intros code queue closed.
  induction queue as [|[f opens] queue (IH1 & IH2 & IH3 & IH4)]; simpl.
  - split; [destruct closed; split; discriminate|]. split; [reflexivity|].
    split; [|reflexivity]. intros [|x before] f0 after H; discriminate H.
  - destruct opens; unfold later; simpl.
    + split; [split; reflexivity|]. split; [reflexivity|].
      split; [|intros H; discriminate H].
      intros [|[f' o'] before] f0 after H Hb.
      * injection H as -> _. auto.
      * injection H as _ Ho _. subst o'. simpl in Hb. discriminate Hb.
    + split; [exact IH1|]. split; [exact IH2|]. split.
      * intros [|[f' o'] before] f0 after H Hb; [discriminate H|].
        injection H as Hf Ho H. subst f' o'. simpl in Hb.
        destruct (IH3 before f0 after H Hb) as [H1 H2]. rewrite H2. auto.
      * intros H. now rewrite IH4.
Qed.

Lemma process_files_other_format_witness :
  fst (ProcessFiles (OtherFormat 1) demo_queue false) = Fatal /\
  popped (snd (ProcessFiles (OtherFormat 1) demo_queue false)) = ["a.txt"; "b.txt"].
Proof.
  exact (proj1 (proj2 (proj2 (process_files_other_format 1 demo_queue false)))
           [("a.txt", false)] "b.txt" [("c.txt", true)] eq_refl eq_refl).
Defined.

End Mr3Facts.
